(** * qutebrowser.commands.managers: command parsing, dispatch and search

    A shallow embedding of [qutebrowser/commands/managers.py]
    ([split_cmdline], [SearchManager], [CommandManager]) together with the
    Python string primitives the module relies on. *)

From Stdlib Require Import ZArith Ascii String List Lia Bool.
From stdpp Require Import gmap strings list.

Local Open Scope Z_scope.

(** ** Python [str] primitives

    Strings are sequences of code points below 256; [isspace] is Python's
    [str.isspace] on that range. *)
Module PyStr.

Definition isspace (c : ascii) : bool :=
  let n := N_of_ascii c in
  (((9 <=? n) && (n <=? 13)) || ((28 <=? n) && (n <=? 32))
   || (n =? 133) || (n =? 160))%N.

Definition is_empty (s : string) : bool :=
  match s with EmptyString => true | String _ _ => false end.

(** [s.lstrip()], [s.rstrip()], [s.strip()] *)
Fixpoint lstrip (s : string) : string :=
  match s with
  | EmptyString => EmptyString
  | String c s' => if isspace c then lstrip s' else s
  end.

Fixpoint rstrip (s : string) : string :=
  match s with
  | EmptyString => EmptyString
  | String c s' =>
      let r := rstrip s' in
      if is_empty r && isspace c then EmptyString else String c r
  end.

Definition strip (s : string) : string := lstrip (rstrip s).

(** [s.endswith(' ')] *)
Fixpoint endswith_space (s : string) : bool :=
  match s with
  | EmptyString => false
  | String c EmptyString => Ascii.eqb c " "
  | String _ s' => endswith_space s'
  end.

(** Prepend a character to the piece under construction (the head of the
    list returned by the scanners below). *)
Definition push (c : ascii) (l : list string) : list string :=
  match l with
  | [] => [String c EmptyString]
  | w :: ws => String c w :: ws
  end.

(** [s.split(maxsplit=k)] with no separator: runs of whitespace separate
    the words, leading whitespace is skipped, and once [k] words have been
    cut the remainder (leading whitespace skipped) is kept as one piece.  A
    negative [k] means no limit.  [split_ws] scans between words,
    [split_word] inside a word. *)
Fixpoint split_ws (k : Z) (s : string) {struct s} : list string :=
  match s with
  | EmptyString => []
  | String c s' =>
      if isspace c then split_ws k s'
      else if k =? 0 then [s]
      else push c (split_word k s')
  end
with split_word (k : Z) (s : string) {struct s} : list string :=
  match s with
  | EmptyString => [EmptyString]
  | String c s' =>
      if isspace c then EmptyString :: split_ws (k - 1) s'
      else push c (split_word k s')
  end.

(** [sep in s] and [s.split(sep)] for a non-empty separator.  [skip] counts
    the characters of a separator occurrence that are still to be dropped. *)
Fixpoint contains (sep s : string) : bool :=
  String.prefix sep s
  || match s with
     | EmptyString => false
     | String _ s' => contains sep s'
     end.

Fixpoint split_go (sep : string) (skip : nat) (s : string) : list string :=
  match s with
  | EmptyString => [EmptyString]
  | String c s' =>
      match skip with
      | S n => split_go sep n s'
      | O =>
          if String.prefix sep s
          then EmptyString :: split_go sep (Nat.pred (String.length sep)) s'
          else push c (split_go sep 0 s')
      end
  end.

Definition split_sep (sep s : string) : list string := split_go sep 0 s.

(** [sep.join(l)] *)
Fixpoint join (sep : string) (l : list string) : string :=
  match l with
  | [] => EmptyString
  | [w] => w
  | w :: ws => w +:+ sep +:+ join sep ws
  end.

End PyStr.

Import PyStr.

(** ** Exceptions *)

(** Modelled from the spec: the exception classes of
    [qutebrowser.commands.exceptions] (imported by the module, not among
    the sources).  [CommandMetaError] is the family of the errors met before
    a command is run, to which [NoSuchCommandError] and
    [ArgumentCountError] belong; [CommandError] is what a running handler
    raises.  [OtherException] stands for everything outside the two
    families. *)
Inductive exn :=
| NoSuchCommandError (msg : string)
| ArgumentCountError (msg : string)
| CommandMetaError (msg : string)
| CommandError (msg : string)
| OtherException (msg : string).

(** [except (CommandMetaError, CommandError)] *)
Definition is_command_failure (e : exn) : bool :=
  match e with
  | OtherException _ => false
  | _ => true
  end.

(** [except NoSuchCommandError] *)
Definition is_no_such_command (e : exn) : bool :=
  match e with
  | NoSuchCommandError _ => true
  | _ => false
  end.

Inductive outcome (A : Type) :=
| Return (a : A)
| Raise (e : exn).
Arguments Return {A} a.
Arguments Raise {A} e.

(** ** A state monad with exceptions

    Attribute writes made before a [raise] persist, so the state is
    returned on both outcomes. *)
Definition SE (S A : Type) : Type := S -> outcome A * S.

#[global] Instance SE_ret {S} : MRet (SE S) :=
  fun A a s => (Return a, s).

#[global] Instance SE_bind {S} : MBind (SE S) :=
  fun A B f m s =>
    match m s with
    | (Return a, s') => f a s'
    | (Raise e, s') => (Raise e, s')
    end.

Definition raise {S A} (e : exn) : SE S A := fun s => (Raise e, s).
Definition gets {S A} (f : S -> A) : SE S A := fun s => (Return (f s), s).
Definition modify {S} (f : S -> S) : SE S unit := fun s => (Return tt, f s).

(** [try: m except <handles>: h e] *)
Definition try_except {S A} (m : SE S A) (handles : exn -> bool)
    (h : exn -> SE S A) : SE S A :=
  fun s =>
    match m s with
    | (Return a, s') => (Return a, s')
    | (Raise e, s') => if handles e then h e s' else (Raise e, s')
    end.

(** [for x in l: body x] *)
Fixpoint for_each {S A} (l : list A) (body : A -> SE S unit) : SE S unit :=
  match l with
  | [] => mret tt
  | x :: xs => body x;; for_each xs body
  end.

(** ** List objects

    Python lists are mutable objects handled by reference.  The store maps
    an address to the current contents of the list allocated there. *)
Module Store.

Abbreviation t := (list (list string)).

Definition alloc (v : list string) (h : t) : nat * t := (length h, h ++ [v]).
Definition read (a : nat) (h : t) : list string := default [] (h !! a).
(** [l.append(x)] *)
Definition append (a : nat) (x : string) (h : t) : t :=
  alter (fun l => l ++ [x]) a h.

End Store.

(** ** SearchManager *)
Module Search.

(** [QWebPage.FindFlag] *)
Definition FindBackward : Z := 1.
Definition FindCaseSensitively : Z := 2.
Definition FindWrapsAroundDocument : Z := 4.

(** The attributes of a [SearchManager]. *)
Record SearchManager := {
  _text : option string;
  _flags : Z
}.

(** [__init__] *)
Definition init : SearchManager := {| _text := None; _flags := 0 |}.

(** One emission of the [do_search] signal: search string and flags. *)
Definition emission : Type := string * Z.

Section WithConfig.

(** [config.get('general', 'ignore-case')] and
    [config.get('general', 'wrap-search')] *)
Variable ignore_case : bool.
Variable wrap_search : bool.

(** [_search(text, rev)]: the new attributes and the emissions, in order. *)
Definition _search (text : string) (rev : bool) (self : SearchManager)
    : SearchManager * list emission :=
  let cleared :=
    match _text self with
    | Some old => if negb (String.eqb old text) then [(EmptyString, 0)] else []
    | None => []
    end in
  let flags := 0 in
  let flags := if ignore_case then Z.lor flags FindCaseSensitively else flags in
  let flags := if wrap_search then Z.lor flags FindWrapsAroundDocument else flags in
  let flags := if rev then Z.lor flags FindBackward else flags in
  ({| _text := Some text; _flags := flags |}, cleared ++ [(text, flags)]).

Definition search (text : string) := _search text false.
Definition search_rev (text : string) := _search text true.

End WithConfig.

(** [for _ in range(count): self.do_search.emit(text, flags)] *)
Definition emit_times (count : Z) (e : emission) : list emission :=
  repeat e (Z.to_nat count).

Definition search_next (count : Z) (self : SearchManager)
    : SearchManager * list emission :=
  match _text self with
  | Some text => (self, emit_times count (text, _flags self))
  | None => (self, [])
  end.

Definition search_prev (count : Z) (self : SearchManager)
    : SearchManager * list emission :=
  match _text self with
  | None => (self, [])
  | Some text =>
      let flags := _flags self in
      let flags :=
        if negb (Z.land flags FindBackward =? 0)
        then Z.land flags (Z.lnot FindBackward)
        else Z.lor flags FindBackward in
      (self, emit_times count (text, flags))
  end.

End Search.

(** ** CommandManager *)
Section Commands.

(** What command handlers act upon. *)
Context {W : Type}.

(** A registered command, as far as the manager uses it: its names in
    [cmd_dict] are the keys that map to it, [split] and [nargs] drive the
    tokenizer, [check] and [run] are its methods.  The methods are given
    the contents of the argument list and leave the list as it is; [run]
    acts on the world, and either method may raise. *)
Record Command := {
  cmd_split : bool;
  cmd_nargs : Z * option Z;
  cmd_check : list string -> option exn;
  cmd_run : list string -> option Z -> W -> W * option exn
}.

(** The globals the manager reads: [cmdutils.cmd_dict], the [aliases]
    section of the configuration ([config.get('aliases', key)], a missing
    option or section being [None]) and
    [qutebrowser.utils.misc.safe_shlex_split]. *)
Class Globals := {
  cmd_dict : gmap string Command;
  config_aliases : gmap string string;
  safe_shlex_split : string -> list string
}.

Context {G : Globals}.

(** The attributes of a [CommandManager]; [_args] is a reference to a list
    object of [store]. *)
Record CommandManager := {
  _cmd : option Command;
  _args : nat;
  store : Store.t
}.

(** [__init__]: [_cmd = None], [_args = []] *)
Definition init : CommandManager :=
  {| _cmd := None; _args := 0%nat; store := [[]] |}.

Definition new_list (v : list string) : SE CommandManager nat :=
  fun self =>
    let (a, h) := Store.alloc v (store self) in
    (Return a, {| _cmd := _cmd self; _args := _args self; store := h |}).

Definition read_list (a : nat) : SE CommandManager (list string) :=
  gets (fun self => Store.read a (store self)).

(** [l[:]] *)
Definition copy_list (a : nat) : SE CommandManager nat :=
  v ← read_list a; new_list v.

Definition list_append (a : nat) (x : string) : SE CommandManager unit :=
  modify (fun self =>
    {| _cmd := _cmd self; _args := _args self;
       store := Store.append a x (store self) |}).

Definition set_cmd (cmd : Command) : SE CommandManager unit :=
  modify (fun self =>
    {| _cmd := Some cmd; _args := _args self; store := store self |}).

Definition set_args (a : nat) : SE CommandManager unit :=
  modify (fun self =>
    {| _cmd := _cmd self; _args := a; store := store self |}).

(** The argument list [parse] builds for [cmd] from [parts]
    ([if len(parts) == 1: ... elif cmd.split: ... else: ...]). *)
Definition split_args (cmd : Command) (parts : list string) : list string :=
  match parts !! 1%nat with
  | None => []
  | Some rest =>
      if cmd_split cmd then safe_shlex_split rest
      else split_ws (fst (cmd_nargs cmd) - 1) rest
  end.

(** [text.endswith(' ') and (cmd.split is True or len(args) < cmd.nargs[0])] *)
Definition wants_marker (text : string) (cmd : Command) (args : list string)
    : bool :=
  endswith_space text
  && (cmd_split cmd || (Z.of_nat (length args) <? fst (cmd_nargs cmd))).

(** [new_cmd]: the text that is parsed again when the leading word is an
    alias. *)
Definition reparse_text (alias : string) (parts : list string) (text : string)
    : string :=
  let new_cmd :=
    match parts !! 1%nat with
    | Some rest => alias +:+ " " +:+ rest
    | None => alias
    end in
  if endswith_space text then new_cmd +:+ " " else new_cmd.

(** The body of [parse]; [self_parse] is the recursive call. *)
Definition parse_with
    (self_parse : string -> bool -> SE CommandManager (list string))
    (text : string) (aliases : bool) : SE CommandManager (list string) :=
  let parts := split_ws 1 (strip text) in
  match parts with
  | [] => raise (NoSuchCommandError "No command given")
  | cmdstr :: _ =>
      match (if aliases then config_aliases !! cmdstr else None) with
      | Some alias => self_parse (reparse_text alias parts text) false
      | None =>
          match cmd_dict !! cmdstr with
          | None => raise (NoSuchCommandError (cmdstr +:+ ": no such command"))
          | Some cmd =>
              args ← new_list (split_args cmd parts);
              set_cmd cmd;;
              set_args args;;
              retargs ← copy_list args;
              args_now ← read_list args;
              (if wants_marker text cmd args_now
               then list_append retargs EmptyString
               else mret tt);;
              ret ← read_list retargs;
              mret (cmdstr :: ret)
          end
      end
  end.

(** [parse]: the recursion is entered with [aliases=True] only and calls
    with [aliases=False], so two levels cover it ([parse_unfold]). *)
Definition parse (text : string) (aliases : bool)
    : SE CommandManager (list string) :=
  parse_with
    (parse_with (fun _ _ => raise (OtherException "RecursionError")))
    text aliases.

(** A manager together with what its collaborators hold: the state the
    handlers act upon, and the trace of the calls made to [Command.check],
    [Command.run] and [message.error]. *)
Inductive event :=
| Checked (cmd : Command) (args : list string)
| Ran (cmd : Command) (args : list string) (count : option Z)
| Message (e : exn) (queue : bool).

Record session := {
  manager : CommandManager;
  world : W;
  trace : list event
}.

Definition on_manager {A} (m : SE CommandManager A) : SE session A :=
  fun s =>
    let (r, self) := m (manager s) in
    (r, {| manager := self; world := world s; trace := trace s |}).

Definition log (ev : event) : SE session unit :=
  modify (fun s =>
    {| manager := manager s; world := world s; trace := trace s ++ [ev] |}).

(** [self._cmd.<method>]: an [AttributeError] on [None]. *)
Definition the_cmd : SE session Command :=
  c ← gets (fun s => _cmd (manager s));
  match c with
  | Some cmd => mret cmd
  | None => raise (OtherException "AttributeError")
  end.

Definition the_args : SE session (list string) :=
  gets (fun s => Store.read (_args (manager s)) (store (manager s))).

(** [self._cmd.check(self._args)] *)
Definition _check : SE session unit :=
  cmd ← the_cmd;
  args ← the_args;
  log (Checked cmd args);;
  match cmd_check cmd args with
  | Some e => raise e
  | None => mret tt
  end.

(** The handler acts on the world and may raise. *)
Definition handler (cmd : Command) (args : list string) (count : option Z)
    : SE session unit :=
  fun s =>
    let (w, r) := cmd_run cmd args count (world s) in
    let s' := {| manager := manager s; world := w; trace := trace s |} in
    match r with
    | Some e => (Raise e, s')
    | None => (Return tt, s')
    end.

Definition call_run (cmd : Command) (args : list string) (count : option Z)
    : SE session unit :=
  log (Ran cmd args count);;
  handler cmd args count.

Definition _run (count : option Z) : SE session unit :=
  match count with
  | Some c => cmd ← the_cmd; args ← the_args; call_run cmd args (Some c)
  | None => cmd ← the_cmd; args ← the_args; call_run cmd args None
  end.

(** The body of [run]; [self_run] is the recursive call. *)
Definition run_with (self_run : string -> option Z -> SE session unit)
    (text : string) (count : option Z) : SE session unit :=
  if contains ";;" text then
    for_each (split_sep ";;" text) (fun sub => self_run sub count)
  else
    on_manager (parse text true);;
    _check;;
    _run count.

(** [run]: a segment cut at [";;"] holds no [";;"], so the recursion is two
    levels deep ([run_unfold]). *)
Definition run (text : string) (count : option Z) : SE session unit :=
  run_with
    (run_with (fun _ _ => raise (OtherException "RecursionError")))
    text count.

(** [message.error(e, queue=...)] *)
Definition message_error (e : exn) (queue : bool) : SE session unit :=
  log (Message e queue).

Definition run_safely (text : string) (count : option Z) : SE session unit :=
  try_except (run text count) is_command_failure
    (fun e => message_error e false).

Definition run_safely_init (text : string) (count : option Z)
    : SE session unit :=
  try_except (run text count) is_command_failure
    (fun e => message_error e true).

(** [split_cmdline]: works on a manager of its own. *)
Definition split_cmdline (text : string) : outcome (list string) :=
  let manager := init in
  let original_cmd := split_ws 1 (strip text) in
  let attempt :=
    try_except (parse text true) is_no_such_command
      (fun _ =>
         let parts := split_sep " " text in
         mret (if endswith_space text then parts ++ [EmptyString] else parts)) in
  match fst (attempt manager) with
  | Return parts =>
      Return
        (match parts with
         | [p] => if negb (is_empty p) then original_cmd else parts
         | _ => parts
         end)
  | Raise e => Raise e
  end.

End Commands.

Arguments Command : clear implicits.
Arguments Globals : clear implicits.
Arguments CommandManager : clear implicits.
Arguments event : clear implicits.
Arguments session : clear implicits.

(** ** Collaborators used in the examples *)

Module Shlex.

Inductive mode :=
| Between
| Word
| Quoted (q : ascii)
| Escaped (back : option ascii).

Definition is_blank (c : ascii) : bool :=
  Ascii.eqb c " " || Ascii.eqb c "009" || Ascii.eqb c "010" || Ascii.eqb c "013".
Definition is_quote (c : ascii) : bool :=
  Ascii.eqb c "034" || Ascii.eqb c "'".
Definition is_escape (c : ascii) : bool := Ascii.eqb c "\".

(** Modelled from the spec: the quoting-aware split utility
    ([qutebrowser.utils.misc.safe_shlex_split], not among the sources):
    "single/double quotes group tokens, backslash escapes, unterminated
    quotes are tolerated".  Blanks separate tokens; a token still open at
    the end of the text is closed there. *)
Fixpoint scan (m : mode) (s : string) : list string :=
  match s with
  | EmptyString =>
      match m with
      | Between => []
      | Word | Quoted _ => [EmptyString]
      | Escaped _ => ["\"]
      end
  | String c s' =>
      match m with
      | Between =>
          if is_blank c then scan Between s'
          else if is_escape c then scan (Escaped None) s'
          else if is_quote c then scan (Quoted c) s'
          else push c (scan Word s')
      | Word =>
          if is_blank c then EmptyString :: scan Between s'
          else if is_escape c then scan (Escaped None) s'
          else if is_quote c then scan (Quoted c) s'
          else push c (scan Word s')
      | Quoted q =>
          if Ascii.eqb c q then scan Word s'
          else if is_escape c && Ascii.eqb q "034" then scan (Escaped (Some q)) s'
          else push c (scan (Quoted q) s')
      | Escaped None => push c (scan Word s')
      | Escaped (Some q) =>
          if is_escape c || Ascii.eqb c q then push c (scan (Quoted q) s')
          else push "\" (push c (scan (Quoted q) s'))
      end
  end.

(** Modelled from the spec: [safe_shlex_split(s)]. *)
Definition split (s : string) : list string := scan Between s.

End Shlex.

(** Modelled from the spec: [Command.check] (not among the sources) "fails
    with ArgumentCountError if outside [min, max]". *)
Definition check_nargs (nargs : Z * option Z) (args : list string)
    : option exn :=
  let n := Z.of_nat (length args) in
  let fits :=
    (fst nargs <=? n)
    && match snd nargs with
       | Some hi => n <=? hi
       | None => true
       end in
  if fits then None else Some (ArgumentCountError "wrong argument count").

(** A small registry.  Handlers act on a journal of what they were given. *)
Module Demo.

Definition journal : Type := list (string * list string).

Definition handler_ok (name : string) (args : list string) (_ : option Z)
    (w : journal) : journal * option exn :=
  (w ++ [(name, args)], None).

Definition handler_failing (name : string) (args : list string)
    (_ : option Z) (w : journal) : journal * option exn :=
  (w, Some (CommandError (name +:+ ": failed"))).

Definition command (name : string) (split : bool) (nargs : Z * option Z)
    : Command journal :=
  {| cmd_split := split; cmd_nargs := nargs;
     cmd_check := check_nargs nargs; cmd_run := handler_ok name |}.

Definition cmd_open := command "open" true (1, Some 1).
Definition cmd_tabopen := command "tabopen" true (1, Some 1).
Definition cmd_quit := command "quit" false (0, Some 0).
Definition cmd_set := command "set" false (3, Some 3).
Definition cmd_back : Command journal :=
  {| cmd_split := false; cmd_nargs := (0, Some 0);
     cmd_check := check_nargs (0, Some 0);
     cmd_run := handler_failing "back" |}.

#[export] Instance globals : Globals journal := {|
  cmd_dict :=
    <["open" := cmd_open]> (<["tabopen" := cmd_tabopen]>
    (<["quit" := cmd_quit]> (<["set" := cmd_set]>
    (<["back" := cmd_back]> ∅))));
  config_aliases :=
    <["o" := "open"]> (<["q" := "quit"]> (<["oo" := "o"]> ∅));
  safe_shlex_split := Shlex.split
|}.

(** The same registry with a configuration in which the command name
    [quit] is also an alias name. *)
Definition shadowed : Globals journal := {|
  cmd_dict := cmd_dict;
  config_aliases := <["q" := "quit"]> (<["quit" := "open"]> ∅);
  safe_shlex_split := Shlex.split
|}.

(** A manager that has parsed a command before. *)
Definition after_open : CommandManager journal :=
  snd (parse "open example.com" true init).

Definition start : session journal :=
  {| manager := init; world := []; trace := [] |}.

(** The journal a run leaves behind. *)
Definition world_of {A} (r : outcome A * session journal) : journal :=
  world (snd r).

End Demo.

(** ** Vocabulary of the statements *)

(** The longest prefix without whitespace, and what follows it. *)
Fixpoint span (s : string) : string * string :=
  match s with
  | EmptyString => (EmptyString, EmptyString)
  | String c s' =>
      if isspace c then (EmptyString, s)
      else (String c (fst (span s')), snd (span s'))
  end.

(** The first whitespace-delimited word of a text, if it has one. *)
Definition first_word (s : string) : option string :=
  match lstrip s with
  | EmptyString => None
  | String c s' => Some (String c (fst (span s')))
  end.

Fixpoint all_nonspace (s : string) : bool :=
  match s with
  | EmptyString => true
  | String c s' => negb (isspace c) && all_nonspace s'
  end.

(** A word: non-empty, without whitespace. *)
Definition word (w : string) : Prop :=
  is_empty w = false /\ all_nonspace w = true.

(** Empty, or starting with whitespace. *)
Definition boundary (s : string) : Prop :=
  match s with
  | EmptyString => True
  | String c _ => isspace c = true
  end.

Definition starts_nonspace (s : string) : bool :=
  match s with
  | EmptyString => false
  | String c _ => negb (isspace c)
  end.

(** The shape of what [split(maxsplit=k)] returns on a non-blank text
    without trailing whitespace: words, closed by the unsplit remainder
    once [k] words have been cut. *)
Inductive split_shape : Z -> list string -> Prop :=
| shape_rest w :
    starts_nonspace w = true -> rstrip w = w -> split_shape 0 [w]
| shape_last k w :
    k <> 0 -> word w -> split_shape k [w]
| shape_cons k w ws :
    k <> 0 -> word w -> split_shape (k - 1) ws -> split_shape k (w :: ws).

Section Vocabulary.

Context {W : Type} {G : Globals W}.

(** The manager after a successful [parse]: [_args] refers to a new list
    holding [args], followed in the store by the returned copy. *)
Definition after_parse (self : CommandManager W) (cmd : Command W)
    (args retargs : list string) : CommandManager W :=
  {| _cmd := Some cmd; _args := length (store self);
     store := store self ++ [args; retargs] |}.

(** The empty argument the trailing-space rule appends, if it applies. *)
Definition marker (text : string) (cmd : Command W) (args : list string)
    : list string :=
  if wants_marker text cmd args then [EmptyString] else [].

(** The text [parse] tokenizes in the end: the text itself, or the one
    built from the alias of its leading word. *)
Definition parsed_text (text : string) (aliases : bool) : string :=
  match split_ws 1 (strip text) with
  | [] => text
  | cmdstr :: l =>
      match (if aliases then config_aliases !! cmdstr else None) with
      | Some alias => reparse_text alias (cmdstr :: l) text
      | None => text
      end
  end.

(** What [parse] does with alias expansion out of the way. *)
Definition parse_plain (t : string) (self : CommandManager W)
    : outcome (list string) * CommandManager W :=
  match split_ws 1 (strip t) with
  | [] => (Raise (NoSuchCommandError "No command given"), self)
  | cmdstr :: l =>
      match cmd_dict !! cmdstr with
      | None =>
          (Raise (NoSuchCommandError (cmdstr +:+ ": no such command")), self)
      | Some cmd =>
          let args := split_args cmd (cmdstr :: l) in
          (Return (cmdstr :: args ++ marker t cmd args),
           after_parse self cmd args (args ++ marker t cmd args))
      end
  end.

(** The segments run one after the other, each returning normally. *)
Inductive runs_ok (count : option Z)
    : list string -> session W -> session W -> Prop :=
| runs_ok_nil s : runs_ok count [] s s
| runs_ok_cons sub rest s s1 s2 :
    run sub count s = (Return tt, s1) ->
    runs_ok count rest s1 s2 ->
    runs_ok count (sub :: rest) s s2.

(** The session once [message.error] has been told about [e]. *)
Definition reported (s : session W) (e : exn) (queue : bool) : session W :=
  {| manager := manager s; world := world s;
     trace := trace s ++ [Message e queue] |}.

End Vocabulary.


Definition starts_with_semi (s : string) : bool :=
  match s with
  | String c _ => Ascii.eqb c ";"
  | EmptyString => false
  end.

(** ** Vocabulary of the further statements *)

(** Only whitespace. *)
Fixpoint all_space (s : string) : bool :=
  match s with
  | EmptyString => true
  | String c s' => isspace c && all_space s'
  end.

(** Sequences of calls to the entry points of a [SearchManager]; the
    configuration is read at each search. *)
Module SearchCalls.

Import Search.

Inductive call :=
| CallSearch (ignore_case wrap_search : bool) (text : string)
| CallSearchRev (ignore_case wrap_search : bool) (text : string)
| CallNext (count : Z)
| CallPrev (count : Z).

Definition is_search (c : call) : bool :=
  match c with
  | CallSearch _ _ _ | CallSearchRev _ _ _ => true
  | CallNext _ | CallPrev _ => false
  end.

Definition step (c : call) (self : SearchManager)
    : SearchManager * list emission :=
  match c with
  | CallSearch ic ws text => search ic ws text self
  | CallSearchRev ic ws text => search_rev ic ws text self
  | CallNext count => search_next count self
  | CallPrev count => search_prev count self
  end.

(** The calls made one after the other: the final attributes and all the
    emissions, in order. *)
Fixpoint steps (cs : list call) (self : SearchManager)
    : SearchManager * list emission :=
  match cs with
  | [] => (self, [])
  | c :: cs' =>
      (fst (steps cs' (fst (step c self))),
       snd (step c self) ++ snd (steps cs' (fst (step c self))))
  end.

End SearchCalls.

Section TraceVocabulary.

Context {W : Type}.

(** What one [run] adds to the trace: for each command dispatched a
    [Checked], followed at once, when the handler was called, by the [Ran]
    of the same command with the same arguments and the count of the call;
    nothing for [message.error]. *)
Inductive dispatch_log (count : option Z) : list (event W) -> Prop :=
| dispatch_nil : dispatch_log count []
| dispatch_checked cmd args evs :
    dispatch_log count evs ->
    dispatch_log count (Checked cmd args :: evs)
| dispatch_ran cmd args evs :
    dispatch_log count evs ->
    dispatch_log count (Checked cmd args :: Ran cmd args count :: evs).

(** The number of handler calls in a trace. *)
Fixpoint handlers_run (evs : list (event W)) : nat :=
  match evs with
  | [] => 0%nat
  | Ran _ _ _ :: evs' => S (handlers_run evs')
  | _ :: evs' => handlers_run evs'
  end.

End TraceVocabulary.

(** ** The primitives and the parser on sample texts *)
Section Samples.

Example split_maxsplit_1 :
  split_ws 1 (strip "  open  a  b c  ") = ["open"; "a  b c"].
Proof. reflexivity. Qed.

Example split_unlimited : split_ws (-1) " a  b c  " = ["a"; "b"; "c"].
Proof. reflexivity. Qed.

Example split_maxsplit_0 : split_ws 0 "  a b " = ["a b "].
Proof. reflexivity. Qed.

Example split_chain :
  split_sep ";;" "a;;;b;;;;c" = ["a"; ";b"; EmptyString; "c"].
Proof. reflexivity. Qed.

Example split_on_space :
  split_sep " " "a  b " = ["a"; EmptyString; "b"; EmptyString].
Proof. reflexivity. Qed.

Example join_marker : join " " ["open"; "a"; EmptyString] = "open a ".
Proof. reflexivity. Qed.

(** The scenario of the specification: [open] is free-splitting with
    arity 1 and [o] is an alias of it. *)
Example scenario_alias :
  fst (parse (G := Demo.globals) "o example.com" true init)
  = Return ["open"; "example.com"].
Proof. reflexivity. Qed.

Example scenario_bogus :
  fst (parse (G := Demo.globals) "bogus" true init)
  = Raise (NoSuchCommandError "bogus: no such command").
Proof. reflexivity. Qed.

Example scenario_trailing_space :
  fst (parse (G := Demo.globals) "open " true init)
  = Return ["open"; EmptyString].
Proof. reflexivity. Qed.

Example scenario_chain :
  Demo.world_of (run (G := Demo.globals) "open a;;quit" None Demo.start)
  = [("open", ["a"]); ("quit", [])].
Proof. reflexivity. Qed.

Example split_cmdline_fallback :
  split_cmdline (G := Demo.globals) "bogus  x "
  = Return ["bogus"; EmptyString; "x"; EmptyString; EmptyString].
Proof. reflexivity. Qed.

End Samples.

(** ** Facts about the string primitives *)
Section StringFacts.

Lemma str_app_nil_l (s : string) : EmptyString +:+ s = s.
Proof. reflexivity. Qed.

Lemma str_app_cons (c : ascii) (s t : string) :
  String c s +:+ t = String c (s +:+ t).
Proof. reflexivity. Qed.

Lemma str_app_nil_r (s : string) : s +:+ EmptyString = s.
Proof. induction s as [|c s IH]; [reflexivity|]. rewrite str_app_cons. now f_equal. Qed.

Lemma str_app_assoc (s t u : string) : (s +:+ t) +:+ u = s +:+ t +:+ u.
Proof.
  induction s as [|c s IH]; [reflexivity|].
  rewrite !str_app_cons. now f_equal.
Qed.

Lemma isspace_space : isspace " " = true.
Proof. reflexivity. Qed.

Lemma is_empty_true (s : string) : is_empty s = true <-> s = EmptyString.
Proof. destruct s; simpl; split; congruence. Qed.

Lemma is_empty_app (s t : string) :
  is_empty (s +:+ t) = is_empty s && is_empty t.
Proof. destruct s; reflexivity. Qed.

(** *** [rstrip], [lstrip] *)

Lemma rstrip_cons (c : ascii) (s : string) :
  rstrip (String c s) =
  if is_empty (rstrip s) && isspace c then EmptyString else String c (rstrip s).
Proof. reflexivity. Qed.

Lemma rstrip_app_space (s : string) : rstrip (s +:+ " ") = rstrip s.
Proof.
  induction s as [|c s IH]; [reflexivity|].
  rewrite str_app_cons, !rstrip_cons, IH. reflexivity.
Qed.

Lemma rstrip_app (a b : string) :
  rstrip (a +:+ b) = if is_empty (rstrip b) then rstrip a else a +:+ rstrip b.
Proof.
  induction a as [|c a IH].
  - rewrite !str_app_nil_l. destruct (rstrip b) eqn:E; reflexivity.
  - rewrite str_app_cons, !rstrip_cons, IH.
    destruct (is_empty (rstrip b)) eqn:E; [reflexivity|].
    rewrite is_empty_app, E, andb_false_r. simpl. now rewrite str_app_cons.
Qed.

Lemma rstrip_idem (s : string) : rstrip (rstrip s) = rstrip s.
Proof.
  induction s as [|c s IH]; [reflexivity|].
  rewrite rstrip_cons.
  destruct (is_empty (rstrip s) && isspace c) eqn:E; [reflexivity|].
  rewrite rstrip_cons, IH, E. reflexivity.
Qed.

Lemma lstrip_idem (s : string) : lstrip (lstrip s) = lstrip s.
Proof.
  induction s as [|c s IH]; [reflexivity|]. simpl.
  destruct (isspace c) eqn:E; [assumption|]. simpl. now rewrite E.
Qed.

Lemma lstrip_starts (s : string) :
  lstrip s = EmptyString \/ starts_nonspace (lstrip s) = true.
Proof.
  induction s as [|c s IH]; [now left|]. simpl.
  destruct (isspace c) eqn:E; [assumption|]. right. simpl. now rewrite E.
Qed.

Lemma starts_nonspace_lstrip (s : string) :
  starts_nonspace s = true -> lstrip s = s.
Proof.
  destruct s as [|c s]; simpl; [discriminate|].
  destruct (isspace c); simpl; [discriminate|reflexivity].
Qed.

(** Stripping on the left keeps a text free of trailing whitespace. *)
Lemma rstrip_lstrip (s : string) : rstrip s = s -> rstrip (lstrip s) = lstrip s.
Proof.
  induction s as [|c s IH]; [reflexivity|]. intros H. simpl.
  destruct (isspace c) eqn:E; [|assumption].
  apply IH. rewrite rstrip_cons, E, andb_true_r in H.
  destruct (is_empty (rstrip s)); [discriminate|]. congruence.
Qed.

Lemma strip_stripped (s : string) :
  lstrip (strip s) = strip s /\ rstrip (strip s) = strip s.
Proof.
  unfold strip. split; [apply lstrip_idem|].
  apply rstrip_lstrip, rstrip_idem.
Qed.

Lemma strip_app_space (s : string) : strip (s +:+ " ") = strip s.
Proof. unfold strip. now rewrite rstrip_app_space. Qed.

(** *** [endswith] *)

Lemma endswith_space_cons (c : ascii) (s : string) :
  endswith_space (String c s) =
  if is_empty s then Ascii.eqb c " " else endswith_space s.
Proof. destruct s; reflexivity. Qed.

Lemma endswith_space_app_space (s : string) : endswith_space (s +:+ " ") = true.
Proof.
  induction s as [|c s IH]; [reflexivity|].
  rewrite str_app_cons, endswith_space_cons, is_empty_app, andb_false_r. exact IH.
Qed.

Lemma endswith_space_app (a b : string) :
  is_empty b = false -> endswith_space (a +:+ b) = endswith_space b.
Proof.
  intros Hb. induction a as [|c a IH]; [reflexivity|].
  rewrite str_app_cons, endswith_space_cons, is_empty_app, Hb, andb_false_r.
  exact IH.
Qed.

(** A text without trailing whitespace does not end in a space. *)
Lemma rstrip_fix_endswith (s : string) :
  rstrip s = s -> endswith_space s = false.
Proof.
  induction s as [|c s IH]; [reflexivity|]. intros H.
  rewrite rstrip_cons in H. rewrite endswith_space_cons.
  destruct (is_empty (rstrip s)) eqn:Er.
  - apply is_empty_true in Er. simpl in H.
    destruct (isspace c) eqn:Ec; [discriminate|].
    injection H as H. rewrite <- H, Er. simpl.
    destruct (Ascii.eqb_spec c " ") as [->|]; [|reflexivity].
    rewrite isspace_space in Ec. discriminate.
  - simpl in H. injection H as H.
    rewrite H in Er. rewrite Er. now apply IH.
Qed.

End StringFacts.

(** ** Facts about [split] *)
Section SplitFacts.

Lemma split_word_span (s : string) (k : Z) :
  split_word k s = fst (span s) :: split_ws (k - 1) (snd (span s)).
Proof.
  induction s as [|c s IH]; [reflexivity|]. simpl.
  destruct (isspace c) eqn:E; simpl.
  - now rewrite E.
  - now rewrite IH.
Qed.

Lemma split_ws_lstrip (s : string) (k : Z) :
  split_ws k (lstrip s) = split_ws k s.
Proof.
  induction s as [|c s IH]; [reflexivity|]. simpl.
  destruct (isspace c) eqn:E; [assumption|]. simpl. now rewrite E.
Qed.

(** [split] one step at a time: skip the whitespace, then either keep the
    remainder whole or cut a word. *)
Lemma split_ws_unfold (s : string) (k : Z) :
  split_ws k s =
  match lstrip s with
  | EmptyString => []
  | String c s' =>
      if k =? 0 then [String c s']
      else String c (fst (span s')) :: split_ws (k - 1) (snd (span s'))
  end.
Proof.
  induction s as [|c s IH]; [reflexivity|]. simpl.
  destruct (isspace c) eqn:E; [assumption|].
  destruct (k =? 0); [reflexivity|].
  now rewrite split_word_span.
Qed.

Lemma split_ws_space (c : ascii) (s : string) (k : Z) :
  isspace c = true -> split_ws k (String c s) = split_ws k s.
Proof. intros E. simpl. now rewrite E. Qed.

Lemma split_ws_zero (s : string) :
  split_ws 0 s = if is_empty (lstrip s) then [] else [lstrip s].
Proof. rewrite split_ws_unfold. destruct (lstrip s); reflexivity. Qed.

Lemma span_app_boundary (w b : string) :
  all_nonspace w = true -> boundary b -> span (w +:+ b) = (w, b).
Proof.
  intros Hw Hb. induction w as [|c w IH].
  - rewrite str_app_nil_l. destruct b as [|d b]; [reflexivity|].
    simpl in *. now rewrite Hb.
  - simpl in Hw. apply andb_true_iff in Hw as [Hc Hw].
    rewrite str_app_cons. simpl. apply negb_true_iff in Hc. rewrite Hc.
    now rewrite (IH Hw).
Qed.

Lemma span_word (s : string) :
  all_nonspace (fst (span s)) = true /\ boundary (snd (span s))
  /\ s = fst (span s) +:+ snd (span s).
Proof.
  induction s as [|c s (IH1 & IH2 & IH3)]; [now repeat split|]. simpl.
  destruct (isspace c) eqn:E; simpl.
  - now repeat split.
  - rewrite E, IH1. repeat split; [assumption|].
    rewrite str_app_cons. now f_equal.
Qed.

Lemma word_starts (w : string) : word w -> starts_nonspace w = true.
Proof.
  intros [H1 H2]. destruct w as [|c w]; [discriminate|].
  simpl in *. now apply andb_true_iff in H2 as [-> _].
Qed.

Lemma all_nonspace_rstrip (w : string) : all_nonspace w = true -> rstrip w = w.
Proof.
  induction w as [|c w IH]; [reflexivity|]. simpl. intros H.
  apply andb_true_iff in H as [Hc Hw]. apply negb_true_iff in Hc.
  now rewrite (IH Hw), Hc, andb_false_r.
Qed.

Lemma word_rstrip (w : string) : word w -> rstrip w = w.
Proof. intros [_ H]. now apply all_nonspace_rstrip. Qed.

Lemma word_lstrip (w : string) : word w -> lstrip w = w.
Proof. intros H. now apply starts_nonspace_lstrip, word_starts. Qed.

Lemma word_strip (w : string) : word w -> strip w = w.
Proof. intros H. unfold strip. now rewrite word_rstrip, word_lstrip. Qed.

Lemma word_endswith (w : string) : word w -> endswith_space w = false.
Proof. intros H. now apply rstrip_fix_endswith, word_rstrip. Qed.

(** A word followed by a boundary is cut off as one token. *)
Lemma split_ws_word_app (w b : string) (k : Z) :
  word w -> boundary b -> k <> 0 ->
  split_ws k (w +:+ b) = w :: split_ws (k - 1) b.
Proof.
  intros Hw Hb Hk. rewrite split_ws_unfold.
  destruct w as [|c w]; [now destruct Hw|].
  rewrite str_app_cons, starts_nonspace_lstrip.
  2:{ apply word_starts in Hw. exact Hw. }
  apply Z.eqb_neq in Hk. rewrite Hk.
  destruct Hw as [_ Hw]. simpl in Hw. apply andb_true_iff in Hw as [_ Hw].
  now rewrite (span_app_boundary _ _ Hw Hb).
Qed.

Lemma split_ws_word (w : string) (k : Z) :
  word w -> k <> 0 -> split_ws k w = [w].
Proof.
  intros Hw Hk. rewrite <- (str_app_nil_r w) at 1.
  now rewrite split_ws_word_app.
Qed.

(** *** The first word *)

Lemma split_ws_first_word (s : string) (k : Z) :
  k <> 0 -> hd_error (split_ws k s) = first_word s.
Proof.
  intros Hk. rewrite split_ws_unfold. unfold first_word.
  apply Z.eqb_neq in Hk. rewrite Hk. now destruct (lstrip s).
Qed.

Lemma span_rstrip (s : string) : fst (span (rstrip s)) = fst (span s).
Proof.
  induction s as [|c s IH]; [reflexivity|]. rewrite rstrip_cons.
  destruct (isspace c) eqn:E.
  - rewrite andb_true_r. destruct (is_empty (rstrip s)); simpl; now rewrite E.
  - rewrite andb_false_r. simpl. rewrite E. simpl. now rewrite IH.
Qed.

Lemma first_word_cons (c : ascii) (s : string) :
  first_word (String c s) =
  if isspace c then first_word s else Some (String c (fst (span s))).
Proof. unfold first_word. simpl. now destruct (isspace c). Qed.

Lemma first_word_rstrip (s : string) : first_word (rstrip s) = first_word s.
Proof.
  induction s as [|c s IH]; [reflexivity|].
  rewrite rstrip_cons, first_word_cons.
  destruct (isspace c) eqn:E.
  - rewrite andb_true_r. destruct (is_empty (rstrip s)) eqn:Er.
    + rewrite <- IH. apply is_empty_true in Er. now rewrite Er.
    + now rewrite first_word_cons, E.
  - rewrite andb_false_r, first_word_cons, E. now rewrite span_rstrip.
Qed.

Lemma first_word_strip (s : string) : first_word (strip s) = first_word s.
Proof.
  unfold strip, first_word. rewrite lstrip_idem.
  apply first_word_rstrip.
Qed.

Lemma span_app_fst (a b : string) :
  boundary b -> fst (span (a +:+ b)) = fst (span a).
Proof.
  intros Hb. induction a as [|c a IH].
  - rewrite str_app_nil_l. destruct b as [|d b]; [reflexivity|].
    simpl in *. now rewrite Hb.
  - rewrite str_app_cons. simpl. destruct (isspace c); [reflexivity|].
    simpl. now rewrite IH.
Qed.

(** Text appended after a boundary does not change the first word. *)
Lemma first_word_app (a b : string) (w : string) :
  first_word a = Some w -> boundary b -> first_word (a +:+ b) = Some w.
Proof.
  intros Ha Hb. induction a as [|c a IH]; [discriminate|].
  rewrite str_app_cons, first_word_cons. rewrite first_word_cons in Ha.
  destruct (isspace c); [now apply IH|].
  now rewrite span_app_fst.
Qed.

Lemma first_word_is_word (s w : string) : first_word s = Some w -> word w.
Proof.
  unfold first_word. destruct (lstrip_starts s) as [->|H]; [discriminate|].
  destruct (lstrip s) as [|c s']; [discriminate|].
  intros [= <-]. split; [reflexivity|]. simpl in *. rewrite H.
  apply span_word.
Qed.

End SplitFacts.

(** ** The shape of [parts] and of the argument list *)
Section ShapeFacts.

Lemma length_lstrip (s : string) : (String.length (lstrip s) <= String.length s)%nat.
Proof.
  induction s as [|c s IH]; [reflexivity|]. simpl.
  destruct (isspace c); simpl; lia.
Qed.

Lemma length_span_snd (s : string) :
  (String.length (snd (span s)) <= String.length s)%nat.
Proof.
  induction s as [|c s IH]; [reflexivity|]. simpl.
  destruct (isspace c); simpl; lia.
Qed.

Lemma starts_nonspace_nonempty (s : string) :
  starts_nonspace s = true -> is_empty s = false.
Proof. now destruct s. Qed.

Lemma starts_nonspace_app (a b : string) :
  starts_nonspace a = true -> starts_nonspace (a +:+ b) = true.
Proof. now destruct a. Qed.

(** What follows a word in a text without trailing whitespace is empty or
    is itself without trailing whitespace. *)
Lemma rstrip_after_word (w b : string) :
  all_nonspace w = true -> rstrip (w +:+ b) = w +:+ b ->
  b = EmptyString \/ (is_empty (rstrip b) = false /\ rstrip b = b).
Proof.
  intros Hw H. rewrite rstrip_app in H.
  destruct (is_empty (rstrip b)) eqn:E.
  - left. rewrite (all_nonspace_rstrip _ Hw) in H.
    rewrite <- (str_app_nil_r w) in H at 1.
    now apply (inj (String.app w)) in H.
  - right. split; [reflexivity|]. now apply (inj (String.app w)) in H.
Qed.

(** [split(maxsplit=1)] of a stripped text: nothing, the command word, or
    the command word and a remainder without surrounding whitespace. *)
Lemma parts_cases (text : string) :
  split_ws 1 (strip text) = []
  \/ exists w, word w /\ first_word text = Some w
     /\ (split_ws 1 (strip text) = [w]
         \/ exists r, split_ws 1 (strip text) = [w; r]
                      /\ starts_nonspace r = true /\ rstrip r = r).
Proof.
  destruct (strip_stripped text) as [Hl Hr].
  pose proof (first_word_strip text) as Hfw.
  rewrite split_ws_unfold, Hl. unfold first_word in Hfw. rewrite Hl in Hfw.
  destruct (strip text) as [|c s'] eqn:Es; [now left|]. right.
  change (1 =? 0) with false. cbv iota.
  destruct (span_word s') as (Hw1 & Hw2 & Hw3).
  destruct (lstrip_starts (String c s')) as [H|Hc]; [rewrite Hl in H; discriminate|].
  rewrite Hl in Hc. simpl in Hc.
  assert (Hw : word (String c (fst (span s')))).
  { split; [reflexivity|]. simpl. now rewrite Hc, Hw1. }
  exists (String c (fst (span s'))). split; [exact Hw|].
  split; [now symmetry|].
  rewrite split_ws_zero.
  destruct (is_empty (lstrip (snd (span s')))) eqn:E; [now left|]. right.
  eexists. split; [reflexivity|].
  destruct (lstrip_starts (snd (span s'))) as [H|H];
    [rewrite H in E; discriminate|].
  split; [exact H|].
  apply rstrip_lstrip.
  assert (Hr' : rstrip (String c (fst (span s')) +:+ snd (span s'))
                = String c (fst (span s')) +:+ snd (span s')).
  { rewrite str_app_cons, <- Hw3. exact Hr. }
  apply rstrip_after_word in Hr' as [H0|[_ H0]]; [|exact H0|apply Hw].
  rewrite H0 in E. discriminate.
Qed.

Lemma split_ws_shape_le (n : nat) : forall (r : string) (k : Z),
  (String.length r <= n)%nat ->
  starts_nonspace r = true -> rstrip r = r ->
  split_shape k (split_ws k r).
Proof.
  induction n as [|n IH]; intros r k Hn Hs Hr.
  { destruct r; [discriminate|simpl in Hn; lia]. }
  rewrite split_ws_unfold, (starts_nonspace_lstrip _ Hs).
  destruct r as [|c s']; [discriminate|].
  destruct (Z.eqb_spec k 0) as [->|Hk]; [now constructor|].
  destruct (span_word s') as (Hw1 & Hw2 & Hw3).
  simpl in Hs.
  assert (Hw : word (String c (fst (span s')))).
  { split; [reflexivity|]. simpl. now rewrite Hs, Hw1. }
  rewrite <- split_ws_lstrip.
  destruct (lstrip_starts (snd (span s'))) as [H|H].
  { rewrite H. simpl. now constructor. }
  constructor; [assumption..|].
  apply IH; [|exact H|].
  - pose proof (length_lstrip (snd (span s'))).
    pose proof (length_span_snd s'). simpl in Hn. lia.
  - apply rstrip_lstrip.
    assert (Hr' : rstrip (String c (fst (span s')) +:+ snd (span s'))
                  = String c (fst (span s')) +:+ snd (span s')).
    { rewrite str_app_cons, <- Hw3. exact Hr. }
    apply rstrip_after_word in Hr' as [H0|[_ H0]]; [|exact H0|apply Hw].
    rewrite H0 in H. discriminate.
Qed.

Lemma split_ws_shape (r : string) (k : Z) :
  starts_nonspace r = true -> rstrip r = r -> split_shape k (split_ws k r).
Proof. now apply (split_ws_shape_le (String.length r)). Qed.


Lemma join_cons (sep w : string) (ws : list string) :
  ws <> [] -> join sep (w :: ws) = w +:+ sep +:+ join sep ws.
Proof. now destruct ws. Qed.

Lemma join_snoc_empty (sep : string) (l : list string) :
  l <> [] -> join sep (l ++ [EmptyString]) = join sep l +:+ sep.
Proof.
  induction l as [|w ws IH]; [congruence|]. intros _.
  destruct ws as [|w' ws].
  - simpl. now rewrite str_app_nil_r.
  - change ((w :: w' :: ws) ++ [EmptyString])
      with (w :: ((w' :: ws) ++ [EmptyString])).
    rewrite !join_cons by (try discriminate; now destruct ws).
    rewrite IH by discriminate. now rewrite !str_app_assoc.
Qed.



End ShapeFacts.

(** ** Segments cut at [";;"] *)
Section ChainFacts.

Lemma prefix_cons (a b : ascii) (s1 s2 : string) :
  String.prefix (String a s1) (String b s2) =
  if ascii_dec a b then String.prefix s1 s2 else false.
Proof. reflexivity. Qed.

Lemma prefix_chain (c : ascii) (s : string) :
  String.prefix ";;" (String c s) = Ascii.eqb c ";" && starts_with_semi s.
Proof.
  rewrite prefix_cons. destruct (ascii_dec ";" c) as [<-|Hc].
  - rewrite Ascii.eqb_refl. destruct s as [|d s]; [reflexivity|].
    rewrite prefix_cons. cbn [starts_with_semi andb].
    destruct (ascii_dec ";" d) as [<-|Hd].
    + rewrite Ascii.eqb_refl. now destruct s.
    + symmetry. apply Ascii.eqb_neq. congruence.
  - symmetry. apply andb_false_iff. left. apply Ascii.eqb_neq. congruence.
Qed.

Lemma contains_cons (c : ascii) (s : string) :
  contains ";;" (String c s) = String.prefix ";;" (String c s) || contains ";;" s.
Proof. reflexivity. Qed.

(** The piece being cut starts like the text it is cut from. *)
Lemma split_go_head (s : string) :
  starts_with_semi (hd EmptyString (split_go ";;" 0 s)) = true ->
  starts_with_semi s = true.
Proof.
  destruct s as [|c s]; [discriminate|].
  change (split_go ";;" 0 (String c s))
    with (if String.prefix ";;" (String c s)
          then EmptyString :: split_go ";;" 1 s
          else push c (split_go ";;" 0 s)).
  destruct (String.prefix ";;" (String c s)); [discriminate|].
  now destruct (split_go ";;" 0 s).
Qed.

Lemma split_go_chain_free (s : string) :
  Forall (fun p => contains ";;" p = false) (split_go ";;" 0 s)
  /\ Forall (fun p => contains ";;" p = false) (split_go ";;" 1 s).
Proof.
  induction s as [|c s [IH0 IH1]]; [now split; repeat constructor|].
  split; [|exact IH0].
  change (split_go ";;" 0 (String c s))
    with (if String.prefix ";;" (String c s)
          then EmptyString :: split_go ";;" 1 s
          else push c (split_go ";;" 0 s)).
  destruct (String.prefix ";;" (String c s)) eqn:E.
  - now constructor.
  - pose proof (split_go_head s) as Hh.
    destruct (split_go ";;" 0 s) as [|h t]; simpl.
    + repeat constructor. rewrite contains_cons, prefix_chain.
      simpl. now rewrite andb_false_r.
    + inversion IH0 as [|? ? Hc Ht]; subst. constructor; [|assumption].
      rewrite contains_cons, Hc, orb_false_r, prefix_chain.
      rewrite prefix_chain in E. simpl in Hh.
      destruct (Ascii.eqb c ";"); [|reflexivity]. simpl in *.
      destruct (starts_with_semi h); [|reflexivity].
      now rewrite Hh in E.
Qed.

(** No segment of [text.split(';;')] contains [";;"]. *)
Lemma split_sep_chain_free (text sub : string) :
  In sub (split_sep ";;" text) -> contains ";;" sub = false.
Proof.
  intros H. pose proof (proj1 (split_go_chain_free text)) as HF.
  rewrite List.Forall_forall in HF. now apply HF.
Qed.

End ChainFacts.

(** ** Facts about the store *)
Section StoreFacts.

Lemma read_alloc (h : Store.t) (v : list string) :
  Store.read (length h) (h ++ [v]) = v.
Proof. unfold Store.read. now rewrite list_lookup_middle. Qed.

Lemma read_first_of_two (h : Store.t) (v v' : list string) :
  Store.read (length h) (h ++ [v; v']) = v.
Proof. unfold Store.read. now rewrite list_lookup_middle. Qed.

Lemma read_under (h : Store.t) (v v' : list string) :
  Store.read (length h) ((h ++ [v]) ++ [v']) = v.
Proof. rewrite <- (assoc_L (++)). apply read_first_of_two. Qed.

Lemma read_second_of_two (h : Store.t) (v v' : list string) :
  Store.read (length (h ++ [v])) ((h ++ [v]) ++ [v']) = v'.
Proof. apply read_alloc. Qed.

Lemma read_after (h : Store.t) (v v' : list string) :
  Store.read (S (length h)) (h ++ [v; v']) = v'.
Proof.
  change (h ++ [v; v']) with (h ++ [v] ++ [v']).
  rewrite (assoc_L (++)).
  replace (S (length h)) with (length (h ++ [v]))
    by (rewrite length_app; cbn [length]; lia).
  apply read_alloc.
Qed.

Lemma append_last (h : Store.t) (v : list string) (x : string) :
  Store.append (length h) x (h ++ [v]) = h ++ [v ++ [x]].
Proof.
  unfold Store.append.
  replace (length h) with (length h + 0)%nat by lia.
  now rewrite alter_app_r.
Qed.

End StoreFacts.

(** ** Facts about [parse] *)
Section ParseFacts.

Context {W : Type} {G : Globals W}.

Ltac unfold_se :=
  unfold mbind, SE_bind, mret, SE_ret, raise, gets, modify, try_except.

(** The direct path of [parse]: the leading word is looked up in
    [cmd_dict], the arguments go to a new list, a copy of it is returned. *)
Lemma parse_with_direct (rec : string -> bool -> SE (CommandManager W) (list string))
    text (aliases : bool) (self : CommandManager W) cmdstr l cmd :
  split_ws 1 (strip text) = cmdstr :: l ->
  (if aliases then config_aliases !! cmdstr else None) = None ->
  cmd_dict !! cmdstr = Some cmd ->
  parse_with rec text aliases self =
  (Return (cmdstr :: split_args cmd (cmdstr :: l)
             ++ marker text cmd (split_args cmd (cmdstr :: l))),
   after_parse self cmd (split_args cmd (cmdstr :: l))
     (split_args cmd (cmdstr :: l)
        ++ marker text cmd (split_args cmd (cmdstr :: l)))).
Proof.
  intros Hp Ha Hc. unfold parse_with. rewrite Hp, Ha, Hc.
  set (args := split_args cmd (cmdstr :: l)).
  unfold copy_list, read_list, new_list, set_cmd, set_args, list_append.
  unfold_se. unfold Store.alloc. cbn [_cmd _args store fst snd].
  rewrite read_alloc, length_app, Nat.add_comm. cbn [length Nat.add].
  rewrite <- (Nat.add_1_r (length (store self))).
  replace (length (store self) + 1)%nat with (length (store self ++ [args]))
    by (rewrite length_app; reflexivity).
  rewrite read_under.
  unfold marker, after_parse.
  destruct (wants_marker text cmd args); cbn [_cmd _args store].
  - rewrite append_last, read_alloc, <- !(assoc_L (++)). reflexivity.
  - rewrite read_alloc, <- !(assoc_L (++)), app_nil_r. reflexivity.
Qed.

Lemma parse_with_none (rec : string -> bool -> SE (CommandManager W) (list string)) text (aliases : bool) (self : CommandManager W) :
  split_ws 1 (strip text) = [] ->
  parse_with rec text aliases self =
  (Raise (NoSuchCommandError "No command given"), self).
Proof. intros Hp. unfold parse_with. now rewrite Hp. Qed.

Lemma parse_with_unknown (rec : string -> bool -> SE (CommandManager W) (list string)) text (aliases : bool) (self : CommandManager W) cmdstr l :
  split_ws 1 (strip text) = cmdstr :: l ->
  (if aliases then config_aliases !! cmdstr else None) = None ->
  cmd_dict !! cmdstr = None ->
  parse_with rec text aliases self =
  (Raise (NoSuchCommandError (cmdstr +:+ ": no such command")), self).
Proof. intros Hp Ha Hc. unfold parse_with. now rewrite Hp, Ha, Hc. Qed.

Lemma parse_with_alias (rec : string -> bool -> SE (CommandManager W) (list string)) text (self : CommandManager W) cmdstr l alias :
  split_ws 1 (strip text) = cmdstr :: l ->
  config_aliases !! cmdstr = Some alias ->
  parse_with rec text true self =
  rec (reparse_text alias (cmdstr :: l) text) false self.
Proof. intros Hp Ha. unfold parse_with. now rewrite Hp, Ha. Qed.

(** With [aliases=False] the recursive call is never reached. *)
Lemma parse_with_false (rec1 rec2 : string -> bool -> SE (CommandManager W) (list string)) text (self : CommandManager W) :
  parse_with rec1 text false self = parse_with rec2 text false self.
Proof.
  unfold parse_with. destruct (split_ws 1 (strip text)); reflexivity.
Qed.

(** [parse] satisfies the recursive equation of the source. *)
Lemma parse_unfold text (aliases : bool) (self : CommandManager W) :
  parse text aliases self = parse_with parse text aliases self.
Proof.
  unfold parse at 1.
  destruct aliases; [|apply parse_with_false].
  destruct (split_ws 1 (strip text)) as [|cmdstr l] eqn:Hp.
  { now rewrite !parse_with_none. }
  destruct (config_aliases !! cmdstr) as [alias|] eqn:Ha.
  - rewrite !(parse_with_alias _ _ _ _ _ _ Hp Ha). apply parse_with_false.
  - unfold parse_with. now rewrite Hp, Ha.
Qed.

Lemma parse_false text (self : CommandManager W) :
  parse text false self = parse_plain text self.
Proof.
  rewrite parse_unfold. unfold parse_plain.
  destruct (split_ws 1 (strip text)) as [|cmdstr l] eqn:Hp.
  { now apply parse_with_none. }
  destruct (cmd_dict !! cmdstr) as [cmd|] eqn:Hc.
  - now apply parse_with_direct.
  - now apply (parse_with_unknown _ _ _ _ _ l).
Qed.

(** [parse] in closed form: expand the alias of the leading word, if asked
    to and if there is one, then take the direct path. *)
Lemma parse_eq text aliases (self : CommandManager W) :
  parse text aliases self = parse_plain (parsed_text text aliases) self.
Proof.
  unfold parsed_text. destruct aliases.
  - destruct (split_ws 1 (strip text)) as [|cmdstr l] eqn:Hp.
    { rewrite <- parse_false, !parse_unfold. now rewrite !parse_with_none. }
    destruct (config_aliases !! cmdstr) as [alias|] eqn:Ha.
    + rewrite parse_unfold, (parse_with_alias _ _ _ _ _ _ Hp Ha).
      apply parse_false.
    + rewrite <- parse_false, !parse_unfold. unfold parse_with.
      now rewrite Hp, Ha.
  - rewrite parse_false. now destruct (split_ws 1 (strip text)).
Qed.

Lemma parse_plain_Raise t (self self' : CommandManager W) e :
  parse_plain t self = (Raise e, self') ->
  self' = self /\ is_no_such_command e = true.
Proof.
  unfold parse_plain. destruct (split_ws 1 (strip t)) as [|cmdstr l].
  { now intros [= <- <-]. }
  destruct (cmd_dict !! cmdstr); [discriminate|]. now intros [= <- <-].
Qed.

Lemma parse_plain_Return t (self self' : CommandManager W) toks :
  parse_plain t self = (Return toks, self') ->
  exists cmdstr l cmd,
    split_ws 1 (strip t) = cmdstr :: l /\ cmd_dict !! cmdstr = Some cmd
    /\ toks = cmdstr :: split_args cmd (cmdstr :: l)
                ++ marker t cmd (split_args cmd (cmdstr :: l))
    /\ self' = after_parse self cmd (split_args cmd (cmdstr :: l))
                 (split_args cmd (cmdstr :: l)
                    ++ marker t cmd (split_args cmd (cmdstr :: l))).
Proof.
  unfold parse_plain. destruct (split_ws 1 (strip t)) as [|cmdstr l]; [discriminate|].
  destruct (cmd_dict !! cmdstr) as [cmd|] eqn:Hc; [|discriminate].
  intros [= <- <-]. now exists cmdstr, l, cmd.
Qed.

End ParseFacts.

(** ** Replaying a parse *)
Section ReplayFacts.

Context {W : Type} {G : Globals W}.

Lemma wants_marker_app_space text (cmd : Command W) args :
  wants_marker (text +:+ " ") cmd args
  = cmd_split cmd || (Z.of_nat (length args) <? fst (cmd_nargs cmd)).
Proof. unfold wants_marker. now rewrite endswith_space_app_space. Qed.

Lemma wants_marker_no_space text (cmd : Command W) args :
  endswith_space text = false -> wants_marker text cmd args = false.
Proof. unfold wants_marker. now intros ->. Qed.

(** A command word followed by a space and a text without surrounding
    whitespace. *)
Lemma command_line_shape (w r : string) :
  word w -> starts_nonspace r = true -> rstrip r = r ->
  strip (w +:+ " " +:+ r) = w +:+ " " +:+ r
  /\ split_ws 1 (w +:+ " " +:+ r) = [w; r]
  /\ endswith_space (w +:+ " " +:+ r) = false.
Proof.
  intros Hw Hs Hr.
  assert (Hne : is_empty r = false) by now apply starts_nonspace_nonempty.
  assert (Hrs : rstrip (w +:+ " " +:+ r) = w +:+ " " +:+ r).
  { rewrite rstrip_app, rstrip_app, Hr, Hne. reflexivity. }
  repeat split.
  - unfold strip. rewrite Hrs.
    now apply starts_nonspace_lstrip, starts_nonspace_app, word_starts.
  - rewrite split_ws_word_app; [|assumption|exact isspace_space|discriminate].
    rewrite str_app_cons, str_app_nil_l, split_ws_space by exact isspace_space.
    now rewrite split_ws_zero, (starts_nonspace_lstrip _ Hs), Hne.
  - now apply rstrip_fix_endswith.
Qed.


End ReplayFacts.

(** ** Facts about [run] *)
Section RunFacts.

Context {W : Type} {G : Globals W}.

Ltac unfold_se :=
  unfold mbind, SE_bind, mret, SE_ret, raise, gets, modify, try_except.

Lemma for_each_ext {S A} (l : list A) (f g : A -> SE S unit) (s : S) :
  (forall x, In x l -> forall s', f x s' = g x s') ->
  for_each l f s = for_each l g s.
Proof.
  revert s. induction l as [|x xs IH]; intros s H; [reflexivity|].
  cbn [for_each]. unfold_se. rewrite (H x) by now left.
  destruct (g x s) as [[[]|e] s']; [|reflexivity].
  apply IH. intros y Hy. apply H. now right.
Qed.

Lemma run_with_single (rec : string -> option Z -> SE (session W) unit)
    text count (s : session W) :
  contains ";;" text = false ->
  run_with rec text count s
  = (on_manager (parse text true);; _check;; _run count) s.
Proof. intros H. unfold run_with. now rewrite H. Qed.

(** [run] satisfies the recursive equation of the source. *)
Lemma run_unfold text count (s : session W) :
  run text count s = run_with run text count s.
Proof.
  unfold run at 1. unfold run_with at 1 3.
  destruct (contains ";;" text) eqn:E; [|reflexivity].
  apply for_each_ext. intros sub Hsub s'.
  apply split_sep_chain_free in Hsub.
  unfold run. now rewrite !run_with_single.
Qed.

Lemma run_chain text count (s : session W) :
  contains ";;" text = true ->
  run text count s
  = for_each (split_sep ";;" text) (fun sub => run sub count) s.
Proof. intros H. rewrite run_unfold. unfold run_with. now rewrite H. Qed.

(** One command: parse, check, run the handler. *)
Lemma run_single text count (s : session W) :
  contains ";;" text = false ->
  run text count s =
  match parse text true (manager s) with
  | (Raise e, self') =>
      (Raise e, {| manager := self'; world := world s; trace := trace s |})
  | (Return _, self') =>
      match _cmd self' with
      | None =>
          (Raise (OtherException "AttributeError"),
           {| manager := self'; world := world s; trace := trace s |})
      | Some cmd =>
          let args := Store.read (_args self') (store self') in
          match cmd_check cmd args with
          | Some e =>
              (Raise e,
               {| manager := self'; world := world s;
                  trace := trace s ++ [Checked cmd args] |})
          | None =>
              (match snd (cmd_run cmd args count (world s)) with
               | Some e => Raise e
               | None => Return tt
               end,
               {| manager := self';
                  world := fst (cmd_run cmd args count (world s));
                  trace := trace s ++ [Checked cmd args; Ran cmd args count] |})
          end
      end
  end.
Proof.
  intros H. rewrite run_unfold, run_with_single by assumption.
  unfold on_manager, _check, _run, the_cmd, the_args, call_run, log, handler.
  unfold_se.
  destruct (parse text true (manager s)) as [[toks|e] self']; [|reflexivity].
  cbn [manager world trace].
  destruct (_cmd self') as [cmd|] eqn:Hcmd; [|reflexivity].
  destruct (cmd_check cmd _) as [e|]; [reflexivity|].
  destruct count; cbn [manager world trace]; rewrite Hcmd;
    cbn [manager world trace];
    (destruct (cmd_run cmd _ _ (world s)) as [w [e|]]; cbn [fst snd];
     now rewrite <- (assoc_L (++))).
Qed.

Lemma for_each_runs_ok count pre rest (s s1 : session W) :
  runs_ok count pre s s1 ->
  for_each (pre ++ rest) (fun sub => run sub count) s
  = for_each rest (fun sub => run sub count) s1.
Proof.
  induction 1 as [|sub pre s s1 s2 Hrun _ IH]; [reflexivity|].
  cbn [app for_each]. unfold_se. now rewrite Hrun.
Qed.

(** When every segment returns normally, all of them are run, in order. *)
Lemma run_chain_all text count (s s' : session W) :
  contains ";;" text = true ->
  runs_ok count (split_sep ";;" text) s s' ->
  run text count s = (Return tt, s').
Proof.
  intros Hc Hall. rewrite run_chain by assumption.
  rewrite <- (app_nil_r (split_sep ";;" text)).
  now rewrite (for_each_runs_ok _ _ _ _ _ Hall).
Qed.

End RunFacts.

(** ** The parser: aliases, trailing space, replay, failure *)
Section ParseClaims.

Context {W : Type} {G : Globals W}.

Lemma reparse_text_app alias parts text :
  exists b, reparse_text alias parts text = alias +:+ b /\ boundary b.
Proof.
  unfold reparse_text.
  destruct (parts !! 1%nat) as [rest|], (endswith_space text).
  - exists (" " +:+ rest +:+ " "). split; [|exact isspace_space].
    now rewrite !str_app_assoc.
  - now exists (" " +:+ rest).
  - now exists " ".
  - exists EmptyString. now rewrite str_app_nil_r.
Qed.

Lemma parts_first_word text w :
  first_word text = Some w -> exists l, split_ws 1 (strip text) = w :: l.
Proof.
  intros H. rewrite <- first_word_strip in H.
  rewrite <- (split_ws_first_word _ 1) in H by discriminate.
  destruct (split_ws 1 (strip text)) as [|x l]; [discriminate|].
  injection H as ->. now exists l.
Qed.


(** C3, amended: for a registered command whose name is not an alias name
    (or with alias expansion off) and a text led by that name that does not
    end in a space, [parse] of the text returns the name and the tokenized
    arguments, and [parse] of the text followed by a space returns one more
    trailing empty argument exactly when the command is free-splitting or
    the arguments are fewer than its minimum arity, and the same list
    otherwise. *)
Theorem trailing_space_rule text (aliases : bool) (self : CommandManager W)
    name l cmd :
  split_ws 1 (strip text) = name :: l ->
  cmd_dict !! name = Some cmd ->
  (if aliases then config_aliases !! name else None) = None ->
  endswith_space text = false ->
  fst (parse text aliases self) = Return (name :: split_args cmd (name :: l))
  /\ fst (parse (text +:+ " ") aliases self)
     = Return
         (if cmd_split cmd
             || (Z.of_nat (length (split_args cmd (name :: l)))
                 <? fst (cmd_nargs cmd))
          then name :: split_args cmd (name :: l) ++ [EmptyString]
          else name :: split_args cmd (name :: l)).
Proof.
  intros Hp Hc Ha He. rewrite !parse_eq. unfold parsed_text.
  rewrite strip_app_space, Hp, Ha. unfold parse_plain.
  rewrite strip_app_space, Hp, Hc. unfold marker. cbn [fst].
  rewrite wants_marker_app_space, wants_marker_no_space by assumption.
  split; [now rewrite app_nil_r|].
  destruct (cmd_split cmd || _); [reflexivity|now rewrite app_nil_r].
Qed.


(** C5: a [parse] that raises raises [NoSuchCommandError] and leaves the
    manager ([_cmd], [_args] and the lists they refer to) as it was. *)
Theorem parse_failure_keeps_state text (aliases : bool)
    (self self' : CommandManager W) e :
  parse text aliases self = (Raise e, self') ->
  self' = self /\ is_no_such_command e = true.
Proof. rewrite parse_eq. apply parse_plain_Raise. Qed.

(** C9: after a successful [parse], [_args] refers to a list holding the
    tokenized arguments; the returned tokens are the command word, those
    arguments and the empty marker when the trailing-space rule applies;
    the marker sits in the returned copy, a different list object.  A [run]
    of a text without [";;"] leaves that manager and hands the list of
    [_args], without the marker, to [check] and to the handler. *)
Theorem marker_not_stored text (aliases : bool) (self self' : CommandManager W)
    toks :
  parse text aliases self = (Return toks, self') ->
  exists cmdstr l cmd,
    split_ws 1 (strip (parsed_text text aliases)) = cmdstr :: l
    /\ cmd_dict !! cmdstr = Some cmd
    /\ _cmd self' = Some cmd
    /\ Store.read (_args self') (store self') = split_args cmd (cmdstr :: l)
    /\ toks = cmdstr :: split_args cmd (cmdstr :: l)
                ++ marker (parsed_text text aliases) cmd
                     (split_args cmd (cmdstr :: l))
    /\ Store.read (S (_args self')) (store self') = tl toks
    /\ (forall count (s : session W),
          aliases = true -> contains ";;" text = false -> manager s = self ->
          manager (snd (run text count s)) = self'
          /\ trace (snd (run text count s))
             = trace s
               ++ Checked cmd (split_args cmd (cmdstr :: l))
                  :: match cmd_check cmd (split_args cmd (cmdstr :: l)) with
                     | None => [Ran cmd (split_args cmd (cmdstr :: l)) count]
                     | Some _ => []
                     end).
Proof.
  intros Hp. pose proof Hp as Hp'. rewrite parse_eq in Hp'.
  apply parse_plain_Return in Hp' as (cmdstr & l & cmd & Hparts & Hc & -> & ->).
  exists cmdstr, l, cmd. cbn [_cmd _args store after_parse tl].
  rewrite read_first_of_two.
  do 5 (split; [assumption || reflexivity|]). split.
  - apply read_after.
  - intros count s -> Hs <-. rewrite run_single, Hp by assumption.
    cbn [_cmd _args store after_parse]. rewrite read_first_of_two.
    now destruct (cmd_check cmd _).
Qed.

(** C10: when the alias-aware parse of a fresh manager returns exactly one
    token and that token is not empty, [split_cmdline] returns the stripped
    text cut once at whitespace instead; for an alias typed alone this is
    the alias name, whereas the token parsed is the leading word of its
    replacement. *)
Theorem split_cmdline_keeps_typed_word text p (self' : CommandManager W) :
  parse text true init = (Return [p], self') ->
  is_empty p = false ->
  split_cmdline text = Return (split_ws 1 (strip text))
  /\ (forall name alias,
        split_ws 1 (strip text) = [name] ->
        config_aliases !! name = Some alias ->
        split_cmdline text = Return [name] /\ first_word alias = Some p).
Proof.
  intros Hp Hne.
  assert (H1 : split_cmdline text = Return (split_ws 1 (strip text))).
  { unfold split_cmdline, try_except. rewrite Hp. cbn [fst]. now rewrite Hne. }
  split; [exact H1|]. intros name alias Hparts Ha.
  split; [now rewrite H1, Hparts|].
  rewrite parse_eq in Hp. unfold parsed_text in Hp. rewrite Hparts, Ha in Hp.
  apply parse_plain_Return in Hp as (c & l & cmd & Hp2 & _ & Htoks & _).
  injection Htoks as <- _.
  destruct (first_word alias) as [w|] eqn:Hw.
  - destruct (reparse_text_app alias [name] text) as (b & Hb & Hbd).
    rewrite Hb in Hp2.
    destruct (parts_first_word (alias +:+ b) w) as [l' Hl'].
    { now apply first_word_app. }
    congruence.
  - exfalso. unfold reparse_text in Hp2. cbn [lookup list_lookup] in Hp2.
    assert (Hblank : first_word (if endswith_space text then alias +:+ " " else alias) = None).
    { destruct (endswith_space text); [|exact Hw].
      rewrite <- first_word_rstrip, rstrip_app_space, first_word_rstrip.
      exact Hw. }
    rewrite <- first_word_strip, <- (split_ws_first_word _ 1) in Hblank
      by discriminate.
    now rewrite Hp2 in Hblank.
Qed.

End ParseClaims.

(** ** The dispatcher: chained commands *)
Section RunClaims.

Context {W : Type} {G : Globals W}.

(** C1, amended: for a line containing [";;"], [run] runs the segments in
    order up to the first one that raises; its exception leaves [run] at
    once, in the state that segment left, and the segments after it are not
    run.  [run_safely] and [run_safely_init] do the same and then, when the
    exception is a [CommandMetaError] or a [CommandError], report it to
    [message.error] (queued for [run_safely_init]) and return; any other
    exception leaves them too. *)
Theorem chain_stops_at_first_failure text count (s s1 s2 : session W)
    pre sub post e :
  contains ";;" text = true ->
  split_sep ";;" text = pre ++ sub :: post ->
  runs_ok count pre s s1 ->
  run sub count s1 = (Raise e, s2) ->
  run text count s = (Raise e, s2)
  /\ run_safely text count s
     = (if is_command_failure e then (Return tt, reported s2 e false)
        else (Raise e, s2))
  /\ run_safely_init text count s
     = (if is_command_failure e then (Return tt, reported s2 e true)
        else (Raise e, s2)).
Proof.
  intros Hc Hsplit Hpre Hsub.
  assert (H : run text count s = (Raise e, s2)).
  { rewrite run_chain, Hsplit by assumption.
    rewrite (for_each_runs_ok _ _ _ _ _ Hpre).
    cbn [for_each]. unfold mbind, SE_bind. now rewrite Hsub. }
  split; [exact H|].
  unfold run_safely, run_safely_init, try_except. rewrite H.
  now destruct (is_command_failure e).
Qed.

End RunClaims.

(** ** The search manager *)
Section SearchClaims.

Import Search.

Lemma land_backward (f : Z) :
  (Z.land f FindBackward =? 0) = negb (Z.testbit f 0).
Proof.
  unfold FindBackward. change 1 with (Z.ones 1).
  rewrite Z.land_ones by lia. change (2 ^ 1) with 2.
  rewrite <- Z.bit0_mod. now destruct (Z.testbit f 0).
Qed.

Lemma testbit_backward (i : Z) : Z.testbit FindBackward i = (i =? 0).
Proof.
  unfold FindBackward. change 1 with (2 ^ 0).
  rewrite Z.pow2_bits_eqb by lia. apply Z.eqb_sym.
Qed.

(** The flags [search_prev] emits: the stored ones with the backward bit
    toggled. *)
Lemma toggled_bits (f : Z) (i : Z) :
  Z.testbit
    (if negb (Z.land f FindBackward =? 0)
     then Z.land f (Z.lnot FindBackward)
     else Z.lor f FindBackward) i
  = if i =? 0 then negb (Z.testbit f 0) else Z.testbit f i.
Proof.
  rewrite land_backward, negb_involutive.
  destruct (Z.ltb_spec i 0) as [Hneg|Hpos].
  { rewrite (Z.testbit_neg_r _ i), (Z.testbit_neg_r f i) by assumption.
    destruct (Z.eqb_spec i 0); [lia|reflexivity]. }
  destruct (Z.testbit f 0) eqn:E.
  - rewrite Z.land_spec, Z.lnot_spec, testbit_backward by assumption.
    destruct (Z.eqb_spec i 0) as [->|]; [|apply andb_true_r].
    apply andb_false_r.
  - rewrite Z.lor_spec, testbit_backward.
    destruct (Z.eqb_spec i 0) as [->|]; [|apply orb_false_r].
    apply orb_true_r.
Qed.

(** C6: [search] and [search_rev] store the new text with flags made of
    the two configuration options and the direction (bit 0: backward, the
    direction asked for; bit 1: the [ignore-case] option; bit 2: the
    [wrap-search] option; no other bit), and emit the search for that text
    with those flags, preceded by the clearing emission (empty text, no
    flag) exactly when another text was stored before. *)
Theorem search_clears_then_searches (ignore_case wrap_search rev : bool)
    (text : string) (self : SearchManager) :
  let entry := if rev then search_rev else search in
  let self' := fst (entry ignore_case wrap_search text self) in
  let emitted := snd (entry ignore_case wrap_search text self) in
  _text self' = Some text
  /\ (forall i,
        Z.testbit (_flags self') i
        = if i =? 0 then rev
          else if i =? 1 then ignore_case
          else if i =? 2 then wrap_search
          else false)
  /\ (forall old,
        _text self = Some old -> old <> text ->
        emitted = [(EmptyString, 0); (text, _flags self')])
  /\ (_text self = None \/ _text self = Some text ->
      emitted = [(text, _flags self')]).
Proof.
  assert (Hbits : forall (b : bool) i,
    Z.testbit
      ((if b then 1 else 0) + (if ignore_case then 2 else 0)
       + (if wrap_search then 4 else 0)) i
    = if i =? 0 then b
      else if i =? 1 then ignore_case
      else if i =? 2 then wrap_search
      else false).
  { intros b i.
    destruct (Z.eqb_spec i 0) as [->|];
      [now destruct b, ignore_case, wrap_search|].
    destruct (Z.eqb_spec i 1) as [->|];
      [now destruct b, ignore_case, wrap_search|].
    destruct (Z.eqb_spec i 2) as [->|];
      [now destruct b, ignore_case, wrap_search|].
    destruct (Z.ltb_spec i 0) as [Hneg|Hpos];
      [now apply Z.testbit_neg_r|].
    destruct b, ignore_case, wrap_search;
      rewrite ?Z.bits_0; try reflexivity;
      (match goal with
       | |- Z.testbit ?c _ = false =>
           apply (Z.bits_above_log2 c); [lia|];
           assert (Z.log2 c < 3) by (apply Z.log2_lt_pow2; lia); lia
       end). }
  assert (Hf : forall b : bool,
    _flags (fst (_search ignore_case wrap_search text b self))
    = (if b then 1 else 0) + (if ignore_case then 2 else 0)
      + (if wrap_search then 4 else 0)).
  { intros b. unfold _search. cbn [fst _flags].
    now destruct b, ignore_case, wrap_search. }
  assert (He : forall b : bool,
    snd (_search ignore_case wrap_search text b self)
    = match _text self with
      | Some old => if negb (String.eqb old text) then [(EmptyString, 0)] else []
      | None => []
      end
      ++ [(text, _flags (fst (_search ignore_case wrap_search text b self)))]).
  { intros b. reflexivity. }
  assert (Hall : forall b : bool,
    _text (fst (_search ignore_case wrap_search text b self)) = Some text
    /\ (forall i,
          Z.testbit (_flags (fst (_search ignore_case wrap_search text b self))) i
          = if i =? 0 then b
            else if i =? 1 then ignore_case
            else if i =? 2 then wrap_search
            else false)
    /\ (forall old,
          _text self = Some old -> old <> text ->
          snd (_search ignore_case wrap_search text b self)
          = [(EmptyString, 0);
             (text, _flags (fst (_search ignore_case wrap_search text b self)))])
    /\ (_text self = None \/ _text self = Some text ->
        snd (_search ignore_case wrap_search text b self)
        = [(text, _flags (fst (_search ignore_case wrap_search text b self)))])).
  { intros b. split; [reflexivity|]. split.
    { intros i. rewrite Hf. apply Hbits. }
    split.
    - intros old Ho Hne. rewrite He, Ho.
      apply String.eqb_neq in Hne. now rewrite Hne.
    - intros [Ho|Ho]; rewrite He, Ho; [reflexivity|].
      now rewrite String.eqb_refl. }
  destruct rev; apply Hall.
Qed.

(** C7: with a text stored, [search_next count] emits the stored text and
    flags [count] times and changes nothing; with no text stored it emits
    nothing. *)
Theorem search_next_repeats (count : Z) (self : SearchManager) :
  0 <= count ->
  match _text self with
  | Some text =>
      search_next count self
      = (self, repeat (text, _flags self) (Z.to_nat count))
      /\ Z.of_nat (length (snd (search_next count self))) = count
  | None => search_next count self = (self, [])
  end.
Proof.
  intros Hc. unfold search_next, emit_times.
  destruct (_text self); [|reflexivity].
  split; [reflexivity|]. cbn [snd]. rewrite repeat_length. lia.
Qed.

(** C8: with a text stored, [search_prev count] emits [count] times the
    stored text with the stored flags whose backward bit is toggled, and
    leaves the stored flags alone; with no text stored it emits nothing.
    After a forward [search], [search_prev] emits with the backward bit set
    and a later [search_next] emits the flags of the search, backward bit
    clear. *)
Theorem search_prev_toggles (count : Z) (self : SearchManager) :
  0 <= count ->
  match _text self with
  | Some text =>
      exists flags,
        search_prev count self = (self, repeat (text, flags) (Z.to_nat count))
        /\ Z.of_nat (length (snd (search_prev count self))) = count
        /\ (forall i,
              Z.testbit flags i
              = if i =? 0 then negb (Z.testbit (_flags self) 0)
                else Z.testbit (_flags self) i)
  | None => search_prev count self = (self, [])
  end
  /\ (forall ignore_case wrap_search text n,
        let searched := fst (search ignore_case wrap_search text self) in
        exists flags,
          search_prev count searched
          = (searched, repeat (text, flags) (Z.to_nat count))
          /\ Z.testbit flags 0 = true
          /\ search_next n (fst (search_prev count searched))
             = (searched, repeat (text, _flags searched) (Z.to_nat n))
          /\ Z.testbit (_flags searched) 0 = false).
Proof.
  intros Hc. split.
  - unfold search_prev, emit_times. destruct (_text self); [|reflexivity].
    eexists. split; [reflexivity|]. split.
    + cbn [snd]. rewrite repeat_length. lia.
    + apply toggled_bits.
  - intros ignore_case wrap_search text n searched.
    assert (Hfwd : Z.testbit (_flags searched) 0 = false).
    { unfold searched, search, _search. cbn [fst _flags].
      now destruct ignore_case, wrap_search. }
    unfold search_prev, search_next, emit_times.
    change (_text searched) with (Some text).
    eexists. split; [reflexivity|]. split.
    + rewrite toggled_bits. cbn [Z.eqb]. now rewrite Hfwd.
    + split; [reflexivity|exact Hfwd].
Qed.

End SearchClaims.

(** ** The statements on the sample registry *)
Section Instances.

Import Demo.

(** C1, counterexample: [run_safely] of ["back;;quit"].  The handler of
    [back] raises a [CommandError]; [run_safely] reports it and returns, and
    the segment [quit] is never checked nor run, although run on its own
    from the same state its handler does act. *)
Lemma lenient_chain_counterexample :
  let s' := snd (run_safely (G := globals) "back;;quit" None start) in
  split_sep ";;" "back;;quit" = ["back"; "quit"]
  /\ run_safely (G := globals) "back;;quit" None start = (Return tt, s')
  /\ trace s'
     = [Checked cmd_back []; Ran cmd_back [] None;
        Message (CommandError "back: failed") false]
  /\ world s' = []
  /\ world (snd (run_safely (G := globals) "quit" None s')) = [("quit", [])].
Proof. vm_compute. repeat split. Qed.

Lemma chain_stops_at_first_failure_witness :
  let s1 := snd (run (G := globals) "quit" None start) in
  let s2 := snd (run (G := globals) "back" None s1) in
  let e := CommandError "back: failed" in
  contains ";;" "quit;;back;;open x" = true
  /\ split_sep ";;" "quit;;back;;open x" = ["quit"] ++ "back" :: ["open x"]
  /\ runs_ok (G := globals) None ["quit"] start s1
  /\ run (G := globals) "back" None s1 = (Raise e, s2)
  /\ run (G := globals) "quit;;back;;open x" None start = (Raise e, s2)
  /\ run_safely (G := globals) "quit;;back;;open x" None start
     = (Return tt, reported s2 e false)
  /\ run_safely_init (G := globals) "quit;;back;;open x" None start
     = (Return tt, reported s2 e true).
Proof.
  intros s1 s2 e.
  assert (Hpre : runs_ok (G := globals) None ["quit"] start s1).
  { apply runs_ok_cons with (s1 := s1); [reflexivity|apply runs_ok_nil]. }
  assert (Hsub : run (G := globals) "back" None s1 = (Raise e, s2))
    by reflexivity.
  split; [reflexivity|]. split; [reflexivity|].
  split; [exact Hpre|]. split; [exact Hsub|].
  apply (chain_stops_at_first_failure (G := globals)
           "quit;;back;;open x" None start s1 s2 ["quit"] "back" ["open x"] e
           eq_refl eq_refl Hpre Hsub).
Defined.


(** C3, counterexample: two registered commands and argument texts for
    which the rule of the claim fails.  [quit] takes no argument and is not
    free-splitting, so the claim has both parses of ["quit x"] return the
    same tokens; but [quit] is also an alias of [open], which is
    free-splitting, and the text ending in a space gets one more token.
    [open] is free-splitting, so the claim has the text with a further
    trailing space return one more token; but with the argument text
    ["x "] both texts end in a space and both get the one marker. *)
Lemma trailing_space_rule_counterexample :
  (cmd_dict (Globals := shadowed) !! "quit" = Some cmd_quit
   /\ cmd_split cmd_quit = false
   /\ fst (cmd_nargs cmd_quit) = 0
   /\ fst (parse (G := shadowed) "quit x" true init) = Return ["open"; "x"]
   /\ fst (parse (G := shadowed) "quit x " true init)
      = Return ["open"; "x"; EmptyString])
  /\ (cmd_dict (Globals := globals) !! "open" = Some cmd_open
      /\ config_aliases (Globals := globals) !! "open" = None
      /\ cmd_split cmd_open = true
      /\ fst (parse (G := globals) "open x " true init)
         = Return ["open"; "x"; EmptyString]
      /\ fst (parse (G := globals) "open x  " true init)
         = Return ["open"; "x"; EmptyString]).
Proof. vm_compute. repeat split. Qed.

Lemma trailing_space_rule_witness :
  split_ws 1 (strip "set a") = ["set"; "a"]
  /\ cmd_dict (Globals := globals) !! "set" = Some cmd_set
  /\ config_aliases (Globals := globals) !! "set" = None
  /\ endswith_space "set a" = false
  /\ fst (parse (G := globals) "set a" true init) = Return ["set"; "a"]
  /\ fst (parse (G := globals) "set a " true init)
     = Return ["set"; "a"; EmptyString].
Proof.
  split; [reflexivity|]. split; [reflexivity|].
  split; [reflexivity|]. split; [reflexivity|].
  apply (trailing_space_rule (G := globals) "set a" true init
           "set" ["a"] cmd_set eq_refl eq_refl eq_refl eq_refl).
Defined.



Lemma parse_failure_keeps_state_witness :
  parse (G := globals) "bogus x" true after_open
  = (Raise (NoSuchCommandError "bogus: no such command"), after_open)
  /\ _cmd after_open = Some cmd_open
  /\ Store.read (_args after_open) (store after_open) = ["example.com"]
  /\ after_open = after_open
  /\ is_no_such_command (NoSuchCommandError "bogus: no such command") = true.
Proof.
  split; [reflexivity|]. split; [reflexivity|]. split; [reflexivity|].
  apply (parse_failure_keeps_state (G := globals) "bogus x" true
           after_open after_open _ eq_refl).
Defined.

Lemma search_clears_then_searches_witness :
  let self := {| Search._text := Some "foo"; Search._flags := 2 |} in
  Search._text self = Some "foo"
  /\ "foo" <> "bar"
  /\ snd (Search.search true true "bar" self) = [(EmptyString, 0); ("bar", 6)]
  /\ snd (Search.search_rev true true "foo" self) = [("foo", 7)].
Proof.
  intros self.
  pose proof (search_clears_then_searches true true false "bar" self)
    as (_ & _ & H3 & _).
  pose proof (search_clears_then_searches true true true "foo" self)
    as (_ & _ & _ & H4).
  split; [reflexivity|]. split; [discriminate|]. split.
  - apply (H3 "foo"); [reflexivity|discriminate].
  - apply H4. now right.
Defined.

Lemma search_next_repeats_witness :
  let self := {| Search._text := Some "foo"; Search._flags := 6 |} in
  0 <= 3
  /\ Search.search_next 3 self = (self, [("foo", 6); ("foo", 6); ("foo", 6)])
  /\ Z.of_nat (length (snd (Search.search_next 3 self))) = 3
  /\ Search.search_next 3 Search.init = (Search.init, []).
Proof.
  intros self. split; [lia|].
  pose proof (search_next_repeats 3 self ltac:(lia)) as [H1 H2].
  pose proof (search_next_repeats 3 Search.init ltac:(lia)) as H3.
  split; [exact H1|]. split; [exact H2|exact H3].
Defined.

Lemma search_prev_toggles_witness :
  let self := {| Search._text := Some "foo"; Search._flags := 6 |} in
  0 <= 2
  /\ (exists flags,
        Search.search_prev 2 self = (self, repeat ("foo", flags) 2)
        /\ Z.of_nat (length (snd (Search.search_prev 2 self))) = 2
        /\ (forall i,
              Z.testbit flags i
              = if i =? 0 then negb (Z.testbit 6 0) else Z.testbit 6 i))
  /\ Search.search_prev 2 self = (self, [("foo", 7); ("foo", 7)])
  /\ Search.search_prev 2 Search.init = (Search.init, []).
Proof.
  intros self. split; [lia|].
  split; [exact (proj1 (search_prev_toggles 2 self ltac:(lia)))|].
  split; [reflexivity|].
  exact (proj1 (search_prev_toggles 2 Search.init ltac:(lia))).
Defined.

Lemma marker_not_stored_witness :
  let self' := snd (parse (G := globals) "set a " true after_open) in
  parse (G := globals) "set a " true after_open
  = (Return ["set"; "a"; EmptyString], self')
  /\ exists cmdstr l cmd,
       split_ws 1 (strip (parsed_text (G := globals) "set a " true))
       = cmdstr :: l
       /\ _cmd self' = Some cmd
       /\ Store.read (_args self') (store self') = split_args cmd (cmdstr :: l)
       /\ Store.read (_args self') (store self') = ["a"]
       /\ Store.read (S (_args self')) (store self') = ["a"; EmptyString].
Proof.
  intros self'. split; [reflexivity|].
  destruct (marker_not_stored (G := globals) "set a " true after_open self'
              ["set"; "a"; EmptyString] eq_refl)
    as (c & l & cmd & H1 & _ & H3 & H4 & _ & H6 & _).
  exists c, l, cmd. split; [exact H1|]. split; [exact H3|].
  split; [exact H4|]. split; [reflexivity|exact H6].
Defined.

Lemma split_cmdline_keeps_typed_word_witness :
  let self' := snd (parse (G := globals) "q" true init) in
  parse (G := globals) "q" true init = (Return ["quit"], self')
  /\ is_empty "quit" = false
  /\ split_ws 1 (strip "q") = ["q"]
  /\ config_aliases (Globals := globals) !! "q" = Some "quit"
  /\ split_cmdline (G := globals) "q" = Return ["q"]
  /\ first_word "quit" = Some "quit".
Proof.
  intros self'.
  pose proof (split_cmdline_keeps_typed_word (G := globals) "q" "quit" self'
                eq_refl eq_refl) as [_ H2].
  split; [reflexivity|]. split; [reflexivity|].
  split; [reflexivity|]. split; [reflexivity|].
  apply (H2 "q" "quit"); reflexivity.
Defined.

End Instances.

(** ** Cutting at single spaces *)
Section SpaceSplitFacts.

Lemma prefix_space (c : ascii) (s : string) :
  String.prefix " " (String c s) = Ascii.eqb c " ".
Proof.
  rewrite prefix_cons. destruct (ascii_dec " " c) as [<-|Hc].
  - rewrite Ascii.eqb_refl. now destruct s.
  - symmetry. apply Ascii.eqb_neq. congruence.
Qed.

Lemma split_space_cons (c : ascii) (s : string) :
  split_sep " " (String c s) =
  if Ascii.eqb c " " then EmptyString :: split_sep " " s
  else push c (split_sep " " s).
Proof.
  unfold split_sep.
  change (split_go " " 0 (String c s))
    with (if String.prefix " " (String c s)
          then EmptyString :: split_go " " 0 s
          else push c (split_go " " 0 s)).
  now rewrite prefix_space.
Qed.

Lemma contains_space_cons (c : ascii) (s : string) :
  contains " " (String c s) = Ascii.eqb c " " || contains " " s.
Proof.
  change (contains " " (String c s))
    with (String.prefix " " (String c s) || contains " " s).
  now rewrite prefix_space.
Qed.

Lemma split_space_nonempty (s : string) : split_sep " " s <> [].
Proof.
  destruct s as [|c s]; [discriminate|]. rewrite split_space_cons.
  destruct (Ascii.eqb c " "); [discriminate|].
  now destruct (split_sep " " s).
Qed.

Lemma join_push (sep : string) (c : ascii) (l : list string) :
  l <> [] -> join sep (push c l) = String c (join sep l).
Proof.
  destruct l as [|w [|w' ws]]; [congruence|reflexivity|]. intros _.
  cbn [push]. now rewrite !join_cons by discriminate.
Qed.

(** [' '.join(s.split(' ')) == s] *)
Lemma join_split_space (s : string) : join " " (split_sep " " s) = s.
Proof.
  induction s as [|c s IH]; [reflexivity|]. rewrite split_space_cons.
  destruct (Ascii.eqb_spec c " ") as [->|Hc].
  - rewrite join_cons by apply split_space_nonempty.
    now rewrite IH.
  - rewrite join_push by apply split_space_nonempty. now rewrite IH.
Qed.

(** A text without a space is one piece; a text with one is cut in two or
    more. *)
Lemma split_space_pieces (s : string) :
  if contains " " s then (2 <= length (split_sep " " s))%nat
  else split_sep " " s = [s].
Proof.
  induction s as [|c s IH]; [reflexivity|].
  rewrite split_space_cons, contains_space_cons.
  pose proof (split_space_nonempty s) as Hne.
  destruct (Ascii.eqb c " "); cbn [orb].
  - destruct (split_sep " " s); [congruence|]. cbn [length]. lia.
  - destruct (contains " " s).
    + destruct (split_sep " " s) as [|w ws]; [congruence|]. exact IH.
    + now rewrite IH.
Qed.

Lemma strip_empty_split (s : string) :
  is_empty (strip s) = true <-> split_ws 1 (strip s) = [].
Proof.
  destruct (strip_stripped s) as [Hl _]. rewrite split_ws_unfold, Hl.
  destruct (strip s); [now split|]. now split.
Qed.

Lemma endswith_contains_space (s : string) :
  endswith_space s = true -> contains " " s = true.
Proof.
  induction s as [|c s IH]; [discriminate|].
  rewrite endswith_space_cons, contains_space_cons.
  destruct (is_empty s); [now intros ->|].
  intros H. rewrite (IH H). apply orb_true_r.
Qed.

End SpaceSplitFacts.

(** ** The convenience splitter *)
Section SplitCmdlineFacts.

Context {W : Type} {G : Globals W}.

Lemma parse_Return_parts text (aliases : bool) (self self' : CommandManager W)
    toks :
  parse text aliases self = (Return toks, self') ->
  split_ws 1 (strip text) <> [] /\ toks <> [].
Proof.
  rewrite parse_eq. unfold parsed_text. intros H.
  split.
  - intros Hp. rewrite Hp in H. unfold parse_plain in H. now rewrite Hp in H.
  - apply parse_plain_Return in H as (c & l & cmd & _ & _ & -> & _).
    discriminate.
Qed.

(** What [split_cmdline] returns when [parse] raises. *)
Lemma split_cmdline_on_failure text (self' : CommandManager W) e :
  parse text true init = (Raise e, self') ->
  split_cmdline text =
  Return
    (match (if endswith_space text
            then split_sep " " text ++ [EmptyString]
            else split_sep " " text) with
     | [p] => if negb (is_empty p) then split_ws 1 (strip text) else [p]
     | parts => parts
     end).
Proof.
  intros Hp. unfold split_cmdline, try_except. rewrite Hp.
  rewrite parse_eq in Hp. apply parse_plain_Raise in Hp as [_ ->].
  cbn [fst mret SE_ret].
  destruct (if endswith_space text then _ else _) as [|p [|q l]]; reflexivity.
Qed.

(** X1: [split_cmdline] always returns a list, never raises; the list is
    empty exactly when the text is not empty, holds no space character and
    is all whitespace (a lone tab, say). *)
Theorem split_cmdline_returns text :
  exists parts,
    split_cmdline text = Return parts
    /\ (parts = [] <->
        is_empty text = false /\ contains " " text = false
        /\ is_empty (strip text) = true).
Proof.
  destruct (parse text true init) as [[toks|e] self'] eqn:Hp.
  - (* parse succeeds: the result is never empty *)
    destruct (parse_Return_parts _ _ _ _ _ Hp) as [Hparts Htoks].
    assert (Hstrip : is_empty (strip text) = false).
    { destruct (is_empty (strip text)) eqn:E; [|reflexivity].
      now apply strip_empty_split in E. }
    unfold split_cmdline, try_except. rewrite Hp. cbn [fst].
    eexists. split; [reflexivity|]. split.
    + intros H. exfalso.
      destruct toks as [|p [|q l]]; [congruence| |discriminate].
      destruct (negb (is_empty p)); [congruence|discriminate].
    + intros (_ & _ & H). congruence.
  - rewrite (split_cmdline_on_failure _ _ _ Hp).
    eexists. split; [reflexivity|].
    pose proof (split_space_pieces text) as Hpieces.
    pose proof (split_space_nonempty text) as Hne.
    destruct (endswith_space text) eqn:Hend.
    + (* the appended empty piece makes two pieces or more *)
      pose proof (endswith_contains_space _ Hend) as Hsp.
      destruct (split_sep " " text) as [|w [|q l]]; [congruence| |];
        (split; [discriminate|intros (_ & H & _); congruence]).
    + destruct (contains " " text) eqn:Hsp.
      * destruct (split_sep " " text) as [|w [|q l]];
          [congruence|cbn [length] in Hpieces; lia|].
        split; [discriminate|intros (_ & H & _); congruence].
      * rewrite Hpieces. destruct (is_empty text) eqn:He; cbn [negb].
        -- split; [discriminate|intros (H & _); congruence].
        -- rewrite <- strip_empty_split. tauto.
Qed.

(** X2: for a text whose leading word is neither an alias nor a command,
    [split_cmdline] loses nothing of a text that holds a space: joined by
    single spaces the pieces give the text back, followed by one more space
    when it ended in one.  A text without any space is returned stripped
    and cut once at whitespace (the empty text as one empty piece). *)
Theorem split_cmdline_unknown text (self' : CommandManager W) e :
  parse text true init = (Raise e, self') ->
  exists parts,
    split_cmdline text = Return parts
    /\ if contains " " text
       then join " " parts = (if endswith_space text then text +:+ " " else text)
       else parts = (if is_empty text then [EmptyString]
                     else split_ws 1 (strip text)).
Proof.
  intros Hp. rewrite (split_cmdline_on_failure _ _ _ Hp).
  eexists. split; [reflexivity|].
  pose proof (split_space_pieces text) as Hpieces.
  pose proof (split_space_nonempty text) as Hne.
  pose proof (join_split_space text) as Hjoin.
  destruct (endswith_space text) eqn:Hend.
  - rewrite (endswith_contains_space _ Hend).
    assert (Hj : join " " (split_sep " " text ++ [EmptyString]) = text +:+ " ").
    { now rewrite join_snoc_empty, Hjoin by assumption. }
    destruct (split_sep " " text) as [|w [|q l]]; [congruence|exact Hj..].
  - destruct (contains " " text) eqn:Hsp.
    + destruct (split_sep " " text) as [|w [|q l]];
        [congruence|cbn [length] in Hpieces; lia|exact Hjoin].
    + rewrite Hpieces. now destruct text.
Qed.

(** X3: when the alias-aware parse returns two tokens or more,
    [split_cmdline] returns them as they are, so that its first piece is a
    registered command name (the word an alias stands for, not the alias). *)
Theorem split_cmdline_keeps_parsed_tokens text (self' : CommandManager W) toks :
  parse text true init = (Return toks, self') ->
  (2 <= length toks)%nat ->
  split_cmdline text = Return toks
  /\ exists cmdstr cmd,
       hd_error toks = Some cmdstr /\ cmd_dict !! cmdstr = Some cmd.
Proof.
  intros Hp Hlen. split.
  - unfold split_cmdline, try_except. rewrite Hp. cbn [fst].
    destruct toks as [|p [|q l]]; [reflexivity|cbn [length] in Hlen; lia|].
    reflexivity.
  - rewrite parse_eq in Hp.
    apply parse_plain_Return in Hp as (c & l & cmd & _ & Hc & -> & _).
    now exists c, cmd.
Qed.

End SplitCmdlineFacts.

(** ** More about [parse] *)
Section ParseMore.

Context {W : Type} {G : Globals W}.

(** [parse] reads a text through its [parts] and through whether it ends
    in a space. *)
Lemma parse_plain_ext t1 t2 (self : CommandManager W) :
  split_ws 1 (strip t1) = split_ws 1 (strip t2) ->
  endswith_space t1 = endswith_space t2 ->
  parse_plain t1 self = parse_plain t2 self.
Proof.
  intros Hp He. unfold parse_plain, marker, wants_marker.
  now rewrite Hp, He.
Qed.

Lemma parse_ext t1 t2 (aliases : bool) (self : CommandManager W) :
  split_ws 1 (strip t1) = split_ws 1 (strip t2) ->
  endswith_space t1 = endswith_space t2 ->
  parse t1 aliases self = parse t2 aliases self.
Proof.
  intros Hp He. rewrite !parse_eq. unfold parsed_text. rewrite Hp.
  destruct (split_ws 1 (strip t2)) as [|cmdstr l] eqn:Hparts.
  { now apply parse_plain_ext; [rewrite Hp, Hparts|]. }
  destruct (if aliases then config_aliases !! cmdstr else None) as [alias|].
  - unfold reparse_text. now rewrite He.
  - apply parse_plain_ext; [now rewrite Hp, Hparts|exact He].
Qed.

Lemma lstrip_all_space_app (ws s : string) :
  all_space ws = true -> lstrip (ws +:+ s) = lstrip s.
Proof.
  induction ws as [|c ws IH]; [reflexivity|]. cbn [all_space].
  intros H. apply andb_true_iff in H as [Hc Hws].
  rewrite str_app_cons. cbn [lstrip]. rewrite Hc. now apply IH.
Qed.

Lemma rstrip_all_space (ws : string) :
  all_space ws = true -> rstrip ws = EmptyString.
Proof.
  induction ws as [|c ws IH]; [reflexivity|]. cbn [all_space].
  intros H. apply andb_true_iff in H as [Hc Hws].
  now rewrite rstrip_cons, (IH Hws), Hc.
Qed.

Lemma strip_all_space_app (ws s : string) :
  all_space ws = true -> strip (ws +:+ s) = strip s.
Proof.
  intros H. unfold strip. rewrite rstrip_app.
  destruct (is_empty (rstrip s)) eqn:E.
  - apply is_empty_true in E. now rewrite E, (rstrip_all_space _ H).
  - now apply lstrip_all_space_app.
Qed.

(** X4: whitespace in front of a text plays no part in [parse]: the
    result, the error and the manager left behind are those of the text
    alone. *)
Theorem parse_ignores_leading_whitespace ws text (aliases : bool)
    (self : CommandManager W) :
  all_space ws = true ->
  is_empty text = false ->
  parse (ws +:+ text) aliases self = parse text aliases self.
Proof.
  intros Hws Hne. apply parse_ext.
  - now rewrite strip_all_space_app.
  - now apply endswith_space_app.
Qed.

Lemma parts_head_word text cmdstr l :
  split_ws 1 (strip text) = cmdstr :: l -> word cmdstr.
Proof.
  intros H.
  destruct (parts_cases text) as [H0|(w & Hw & _ & [H1|(r & H2 & _)])];
    congruence.
Qed.

(** X5: the first token [parse] returns is a word (not empty, free of
    whitespace) under which a command is registered, and that command is
    the one left in [_cmd]. *)
Theorem parse_returns_registered_word text (aliases : bool)
    (self self' : CommandManager W) toks :
  parse text aliases self = (Return toks, self') ->
  exists cmdstr rest cmd,
    toks = cmdstr :: rest /\ word cmdstr
    /\ cmd_dict !! cmdstr = Some cmd /\ _cmd self' = Some cmd.
Proof.
  rewrite parse_eq. intros H.
  apply parse_plain_Return in H as (c & l & cmd & Hparts & Hc & -> & ->).
  eexists c, _, cmd. split; [reflexivity|].
  split; [now apply parts_head_word in Hparts|]. now split.
Qed.

Lemma split_shape_length (k : Z) (l : list string) :
  split_shape k l -> 0 <= k -> Z.of_nat (length l) <= k + 1.
Proof.
  induction 1 as [w Hs Hr|k w Hk Hw|k w ws Hk Hw Hws IH]; intros Hpos.
  - cbn [length]. lia.
  - cbn [length]. lia.
  - cbn [length]. rewrite Nat2Z.inj_succ. assert (0 <= k - 1) by lia. lia.
Qed.

(** The arguments of a fixed-arity command: none, or the pieces of the
    remainder cut at most [nargs[0] - 1] times. *)
Lemma fixed_arity_args t (cmd : Command W) cmdstr l :
  split_ws 1 (strip t) = cmdstr :: l ->
  cmd_split cmd = false ->
  split_args cmd (cmdstr :: l) = []
  \/ split_shape (fst (cmd_nargs cmd) - 1) (split_args cmd (cmdstr :: l)).
Proof.
  intros Hparts Hsplit.
  destruct (parts_cases t) as [H0|(w & Hw & _ & [H1|(r & H2 & Hs & Hr)])].
  - congruence.
  - left. rewrite H1 in Hparts. now injection Hparts as <- <-.
  - right. rewrite H2 in Hparts. injection Hparts as <- <-.
    unfold split_args. cbn [lookup list_lookup]. rewrite Hsplit.
    now apply split_ws_shape.
Qed.

(** X6: a command that is not free-splitting and requires [n >= 1]
    arguments never gets more than [n] of them from [parse], however many
    words the text holds, and the returned list, marker included, never
    more than [n + 1] tokens. *)
Theorem parse_fixed_arity_bound text (aliases : bool)
    (self self' : CommandManager W) toks cmd :
  parse text aliases self = (Return toks, self') ->
  _cmd self' = Some cmd ->
  cmd_split cmd = false ->
  1 <= fst (cmd_nargs cmd) ->
  Z.of_nat (length (Store.read (_args self') (store self')))
    <= fst (cmd_nargs cmd)
  /\ Z.of_nat (length toks) <= 1 + fst (cmd_nargs cmd).
Proof.
  rewrite parse_eq. intros H Hcmd Hsplit Hmin.
  apply parse_plain_Return in H as (c & l & cmd' & Hparts & Hc & -> & ->).
  cbn [_cmd after_parse] in Hcmd. injection Hcmd as ->.
  cbn [_args store after_parse]. rewrite read_first_of_two.
  set (args := split_args cmd (c :: l)).
  assert (Hlen : Z.of_nat (length args) <= fst (cmd_nargs cmd)).
  { destruct (fixed_arity_args _ cmd _ _ Hparts Hsplit) as [H0|Hshape].
    - unfold args. rewrite H0. cbn [length]. lia.
    - apply split_shape_length in Hshape; [|lia]. fold args in Hshape. lia. }
  split; [exact Hlen|].
  cbn [length]. rewrite Nat2Z.inj_succ, length_app, Nat2Z.inj_add.
  unfold marker, wants_marker. rewrite Hsplit. cbn [orb].
  destruct (endswith_space _); cbn [andb length]; [|lia].
  destruct (Z.ltb_spec (Z.of_nat (length args)) (fst (cmd_nargs cmd)));
    cbn [length]; lia.
Qed.

(** X7: [parse] creates the lists it needs and never touches one that
    existed before: the store only grows, and every list object already in
    it keeps its contents, whether [parse] returns or raises. *)
Theorem parse_keeps_existing_lists text (aliases : bool)
    (self self' : CommandManager W) r a :
  parse text aliases self = (r, self') ->
  (a < length (store self))%nat ->
  (length (store self) <= length (store self'))%nat
  /\ Store.read a (store self') = Store.read a (store self).
Proof.
  rewrite parse_eq. intros H Ha. destruct r as [toks|e].
  - apply parse_plain_Return in H as (c & l & cmd & _ & _ & _ & ->).
    cbn [store after_parse]. rewrite length_app. split; [lia|].
    unfold Store.read. now rewrite lookup_app_l.
  - apply parse_plain_Raise in H as [-> _]. now split.
Qed.

Lemma endswith_space_word_app (w b : string) :
  word w -> endswith_space (w +:+ b) = endswith_space b.
Proof.
  intros Hw. destruct b as [|c b].
  - rewrite str_app_nil_r. now apply word_endswith.
  - now apply endswith_space_app.
Qed.

Lemma rstrip_boundary (b : string) :
  boundary b -> is_empty (rstrip b) = false -> boundary (rstrip b).
Proof.
  destruct b as [|c b]; [discriminate|]. cbn [boundary]. intros Hc.
  rewrite rstrip_cons, Hc, andb_true_r.
  now destruct (is_empty (rstrip b)).
Qed.

(** The [parts] of a word followed by a boundary. *)
Lemma parts_word_app (w b : string) :
  word w -> boundary b ->
  split_ws 1 (strip (w +:+ b))
  = w :: (if is_empty (strip b) then [] else [strip b]).
Proof.
  intros Hw Hb. unfold strip at 1. rewrite rstrip_app.
  destruct (is_empty (rstrip b)) eqn:E.
  - rewrite (word_rstrip _ Hw), (word_lstrip _ Hw).
    rewrite (split_ws_word _ 1 Hw) by discriminate.
    unfold strip. apply is_empty_true in E. now rewrite E.
  - rewrite starts_nonspace_lstrip
      by now apply starts_nonspace_app, word_starts.
    rewrite split_ws_word_app;
      [|assumption|now apply rstrip_boundary|discriminate].
    now rewrite split_ws_zero.
Qed.

(** X8: an alias that stands for a single word is a replacement of the
    leading word in the text: parsing a text led by the alias gives what
    parsing, with alias expansion off, the same text led by that word
    gives (tokens or error, and manager). *)
Theorem alias_replaces_leading_word name target b (self : CommandManager W) :
  word name -> word target -> boundary b ->
  config_aliases !! name = Some target ->
  parse (name +:+ b) true self = parse (target +:+ b) false self.
Proof.
  intros Hn Ht Hb Ha. rewrite !parse_eq. unfold parsed_text.
  rewrite (parts_word_app _ _ Hn Hb), (parts_word_app _ _ Ht Hb), Ha.
  apply parse_plain_ext.
  - rewrite (parts_word_app _ _ Ht Hb). unfold reparse_text.
    rewrite (endswith_space_word_app _ _ Hn).
    destruct (is_empty (strip b)) eqn:E; cbn [lookup list_lookup].
    + destruct (endswith_space b).
      * rewrite strip_app_space, (word_strip _ Ht).
        now rewrite (split_ws_word _ 1 Ht) by discriminate.
      * rewrite (word_strip _ Ht).
        now rewrite (split_ws_word _ 1 Ht) by discriminate.
    + destruct (strip_stripped b) as [Hl Hr].
      assert (Hs : starts_nonspace (strip b) = true).
      { destruct (lstrip_starts (strip b)) as [H|H]; rewrite Hl in H;
          [rewrite H in E; discriminate|exact H]. }
      destruct (command_line_shape target (strip b) Ht Hs Hr)
        as (Hstrip & Hsplit & _).
      destruct (endswith_space b).
      * rewrite <- !str_app_assoc, strip_app_space, !str_app_assoc.
        now rewrite Hstrip, Hsplit.
      * now rewrite Hstrip, Hsplit.
  - unfold reparse_text.
    rewrite (endswith_space_word_app _ _ Hn),
      (endswith_space_word_app _ _ Ht).
    destruct (endswith_space b) eqn:Eb.
    + destruct (is_empty (strip b)); cbn [lookup list_lookup];
        now rewrite <- ?str_app_assoc, endswith_space_app_space.
    + destruct (is_empty (strip b)) eqn:E; cbn [lookup list_lookup].
      * now apply word_endswith.
      * destruct (strip_stripped b) as [Hl Hr].
        assert (Hs : starts_nonspace (strip b) = true).
        { destruct (lstrip_starts (strip b)) as [H|H]; rewrite Hl in H;
            [rewrite H in E; discriminate|exact H]. }
        now destruct (command_line_shape target (strip b) Ht Hs Hr)
          as (_ & _ & ->).
Qed.

End ParseMore.

(** ** What [run] leaves in the trace and in the world *)
Section RunMore.

Context {W : Type} {G : Globals W}.

Lemma dispatch_log_app count (e1 e2 : list (event W)) :
  dispatch_log count e1 -> dispatch_log count e2 ->
  dispatch_log count (e1 ++ e2).
Proof.
  induction 1 as [|cmd args evs H IH|cmd args evs H IH]; intros H2; cbn [app];
    [assumption|apply dispatch_checked; auto|apply dispatch_ran; auto].
Qed.

Lemma handlers_run_app (e1 e2 : list (event W)) :
  handlers_run (e1 ++ e2) = (handlers_run e1 + handlers_run e2)%nat.
Proof.
  induction e1 as [|[| |] e1 IH]; cbn [app handlers_run]; lia.
Qed.

Lemma session_eta (s : session W) :
  {| manager := manager s; world := world s; trace := trace s |} = s.
Proof. now destruct s. Qed.

(** One command: what is logged, and when the world may have changed. *)
Lemma run_single_log text count (s : session W) :
  contains ";;" text = false ->
  exists evs,
    trace (snd (run text count s)) = trace s ++ evs
    /\ dispatch_log count evs
    /\ (handlers_run evs <= 1)%nat
    /\ (handlers_run evs = 0%nat -> world (snd (run text count s)) = world s).
Proof.
  intros H. rewrite run_single by assumption.
  destruct (parse text true (manager s)) as [[toks|e] self'].
  - destruct (_cmd self') as [cmd|].
    + cbv zeta. destruct (cmd_check cmd _) as [e|].
      * eexists [_]. cbn [snd trace world handlers_run].
        repeat split; [apply dispatch_checked, dispatch_nil|lia].
      * eexists [_; _]. cbn [snd trace world handlers_run].
        repeat split; [apply dispatch_ran, dispatch_nil|lia|discriminate].
    + exists []. cbn [snd trace world handlers_run].
      rewrite app_nil_r. repeat split; [constructor|lia].
  - exists []. cbn [snd trace world handlers_run].
    rewrite app_nil_r. repeat split; [constructor|lia].
Qed.

Lemma for_each_log count (l : list string) :
  (forall sub, In sub l -> contains ";;" sub = false) ->
  forall s : session W,
  exists evs,
    trace (snd (for_each l (fun sub => run sub count) s)) = trace s ++ evs
    /\ dispatch_log count evs
    /\ (handlers_run evs <= length l)%nat
    /\ (handlers_run evs = 0%nat ->
        world (snd (for_each l (fun sub => run sub count) s)) = world s).
Proof.
  induction l as [|sub l IH]; intros Hl s.
  { exists []. cbn. rewrite app_nil_r. repeat split; [constructor|lia]. }
  destruct (run_single_log sub count s) as (e1 & Ht1 & Hd1 & Hn1 & Hw1).
  { apply Hl. now left. }
  cbn [for_each]. unfold mbind, SE_bind.
  destruct (run sub count s) as [[[]|e] s1] eqn:Hrun; cbn [snd] in *.
  - destruct (IH (fun x Hx => Hl x (or_intror Hx)) s1)
      as (e2 & Ht2 & Hd2 & Hn2 & Hw2).
    exists (e1 ++ e2). rewrite Ht2, Ht1, (assoc_L (++)).
    split; [reflexivity|]. split; [now apply dispatch_log_app|].
    rewrite handlers_run_app. cbn [length]. split; [lia|].
    intros H0. rewrite Hw2, Hw1 by lia. reflexivity.
  - exists e1. cbn [length]. repeat split; [assumption..|lia|assumption].
Qed.

Lemma split_chain_nonempty (text : string) : split_sep ";;" text <> [].
Proof.
  unfold split_sep. destruct text as [|c s]; [discriminate|].
  change (split_go ";;" 0 (String c s))
    with (if String.prefix ";;" (String c s)
          then EmptyString :: split_go ";;" 1 s
          else push c (split_go ";;" 0 s)).
  destruct (String.prefix ";;" (String c s)); [discriminate|].
  now destruct (split_go ";;" 0 s).
Qed.

Lemma run_log text count (s : session W) :
  exists evs,
    trace (snd (run text count s)) = trace s ++ evs
    /\ dispatch_log count evs
    /\ (handlers_run evs <= length (split_sep ";;" text))%nat
    /\ (handlers_run evs = 0%nat -> world (snd (run text count s)) = world s).
Proof.
  destruct (contains ";;" text) eqn:Hc.
  - rewrite run_chain by assumption. apply for_each_log.
    intros sub. apply split_sep_chain_free.
  - destruct (run_single_log text count s Hc) as (evs & Ht & Hd & Hn & Hw).
    exists evs. repeat split; [assumption..| |assumption].
    pose proof (split_chain_nonempty text).
    destruct (split_sep ";;" text); [congruence|cbn [length]; lia].
Qed.

(** X9: all that [run] adds to the trace is, per command dispatched, a
    [check] followed at once, if at all, by the call of the handler of the
    same command with the same arguments and the count given to [run];
    nothing goes to [message.error], the earlier trace is kept, and no more
    handlers are called than the line has segments. *)
Theorem run_checks_before_it_calls text count (s : session W) :
  exists evs,
    trace (snd (run text count s)) = trace s ++ evs
    /\ dispatch_log count evs
    /\ (handlers_run evs <= length (split_sep ";;" text))%nat.
Proof.
  destruct (run_log text count s) as (evs & H1 & H2 & H3 & _). eauto.
Qed.

(** X10: the world changes through handlers only: a [run] that has called
    no handler, whatever it parsed, checked or raised, leaves the world as
    it found it. *)
Theorem run_without_handler_keeps_world text count (s : session W) evs :
  trace (snd (run text count s)) = trace s ++ evs ->
  handlers_run evs = 0%nat ->
  world (snd (run text count s)) = world s.
Proof.
  intros Ht H0. destruct (run_log text count s) as (evs' & Ht' & _ & _ & Hw).
  rewrite Ht in Ht'. apply (inj (app (trace s))) in Ht' as <-. auto.
Qed.

(** X11: a line without [";;"] whose leading word is neither an alias nor
    a command makes [run] raise the error of [parse] and leaves the whole
    session, manager included, exactly as it was. *)
Theorem run_unknown_command_changes_nothing text count (s : session W) e self' :
  contains ";;" text = false ->
  parse text true (manager s) = (Raise e, self') ->
  run text count s = (Raise e, s).
Proof.
  intros Hc Hp. rewrite run_single, Hp by assumption.
  rewrite parse_eq in Hp. apply parse_plain_Raise in Hp as [-> _].
  now rewrite session_eta.
Qed.

(** X12: when the check of the parsed command raises, [run] raises that
    error without calling the handler: the world is untouched and the
    trace gains the check alone, while the manager already holds the
    command and arguments just parsed. *)
Theorem run_failed_check_skips_handler text count (s : session W) toks self'
    cmd e :
  contains ";;" text = false ->
  parse text true (manager s) = (Return toks, self') ->
  _cmd self' = Some cmd ->
  cmd_check cmd (Store.read (_args self') (store self')) = Some e ->
  run text count s
  = (Raise e,
     {| manager := self'; world := world s;
        trace := trace s
                 ++ [Checked cmd (Store.read (_args self') (store self'))] |}).
Proof.
  intros Hc Hp Hcmd Hcheck. rewrite run_single, Hp, Hcmd by assumption.
  cbv zeta. now rewrite Hcheck.
Qed.

(** X13: a blank segment (as after a trailing [";;"]) makes [run] raise
    "No command given" once the segments before it have run; nothing after
    it is run. *)
Theorem run_blank_segment text count (s s1 : session W) pre sub post :
  contains ";;" text = true ->
  split_sep ";;" text = pre ++ sub :: post ->
  is_empty (strip sub) = true ->
  runs_ok count pre s s1 ->
  run text count s = (Raise (NoSuchCommandError "No command given"), s1).
Proof.
  intros Hc Hsplit Hblank Hpre.
  assert (Hsub : contains ";;" sub = false).
  { apply (split_sep_chain_free text). rewrite Hsplit.
    apply in_or_app. right. now left. }
  assert (Hrun : run sub count s1
                 = (Raise (NoSuchCommandError "No command given"), s1)).
  { rewrite run_single by assumption.
    rewrite parse_unfold, parse_with_none by now apply strip_empty_split.
    now rewrite session_eta. }
  rewrite run_chain, Hsplit by assumption.
  rewrite (for_each_runs_ok _ _ _ _ _ Hpre).
  cbn [for_each]. unfold mbind, SE_bind. now rewrite Hrun.
Qed.

(** X14: [run_safely] and [run_safely_init] never let a
    [CommandMetaError] or a [CommandError] out, and tell [message.error] at
    most once per call, after everything [run] has logged, however many
    segments the line has; the report is queued by [run_safely_init]
    only. *)
Theorem lenient_run_reports_once (queue : bool) text count (s : session W) :
  let lenient := if queue then run_safely_init else run_safely in
  exists evs msgs,
    trace (snd (lenient text count s)) = trace s ++ evs ++ msgs
    /\ dispatch_log count evs
    /\ match fst (lenient text count s) with
       | Raise e => is_command_failure e = false /\ msgs = []
       | Return _ =>
           msgs = []
           \/ exists e, is_command_failure e = true
                        /\ msgs = [Message e queue]
       end.
Proof.
  destruct (run_log text count s) as (evs & Ht & Hd & _).
  assert (H : forall q,
    exists msgs,
      trace (snd (try_except (run text count) is_command_failure
                    (fun e => message_error e q) s))
      = trace s ++ evs ++ msgs
      /\ match fst (try_except (run text count) is_command_failure
                      (fun e => message_error e q) s) with
         | Raise e => is_command_failure e = false /\ msgs = []
         | Return _ =>
             msgs = []
             \/ exists e, is_command_failure e = true
                          /\ msgs = [Message e q]
         end).
  { intros q. unfold try_except, message_error, log, modify.
    destruct (run text count s) as [[[]|e] s1]; cbn [snd] in Ht.
    - exists []. cbn [fst snd]. rewrite app_nil_r. split; [exact Ht|now left].
    - destruct (is_command_failure e) eqn:He.
      + exists [Message e q]. cbn [fst snd trace]. rewrite Ht, (assoc_L (++)).
        split; [reflexivity|]. right. now exists e.
      + exists []. cbn [fst snd]. rewrite app_nil_r. now split. }
  intros lenient. exists evs.
  destruct queue; destruct (H true) as (m1 & ?); destruct (H false) as (m2 & ?);
    [exists m1|exists m2]; tauto.
Qed.

End RunMore.

(** ** Sequences of searches *)
Section SearchMore.

Import Search SearchCalls.

Lemma search_flags_range (ic ws rev : bool) text (self : SearchManager) :
  0 <= _flags (fst (_search ic ws text rev self)) <= 7.
Proof. unfold _search. cbn [fst _flags]. now destruct ic, ws, rev. Qed.

Lemma toggled_range (f : Z) :
  0 <= f <= 7 ->
  0 <= (if negb (Z.land f FindBackward =? 0)
        then Z.land f (Z.lnot FindBackward)
        else Z.lor f FindBackward) <= 7.
Proof.
  intros H.
  assert (Hf : f = 0 \/ f = 1 \/ f = 2 \/ f = 3 \/ f = 4 \/ f = 5 \/ f = 6
               \/ f = 7) by lia.
  destruct Hf as [->|[->|[->|[->|[->|[->|[->| ->]]]]]]];
    cbv; split; intro; discriminate.
Qed.

Lemma Forall_repeat {A} (P : A -> Prop) (x : A) (n : nat) :
  P x -> Forall P (repeat x n).
Proof. intros H. induction n; cbn [repeat]; constructor; auto. Qed.

(** One call keeps the flags within the three bits and emits only flags
    within them; it keeps or sets the text. *)
Lemma step_invariant (c : call) (self : SearchManager) :
  0 <= _flags self <= 7 ->
  0 <= _flags (fst (step c self)) <= 7
  /\ Forall (fun e : emission => 0 <= snd e <= 7) (snd (step c self))
  /\ (_text (fst (step c self)) = None
      <-> _text self = None /\ is_search c = false)
  /\ (_text self = None -> is_search c = false -> step c self = (self, [])).
Proof.
  intros Hf. destruct c as [ic ws text|ic ws text|count|count];
    cbn [step is_search].
  - split; [apply search_flags_range|]. split.
    + unfold search, _search. cbn [snd].
      apply Forall_app. split.
      * destruct (_text self) as [old|]; [|constructor].
        destruct (negb _); repeat constructor; cbn [snd]; lia.
      * constructor; [|constructor].
        exact (search_flags_range ic ws false text self).
    + split; [|discriminate]. split; [discriminate|now intros [_ ?]].
  - split; [apply search_flags_range|]. split.
    + unfold search_rev, _search. cbn [snd].
      apply Forall_app. split.
      * destruct (_text self) as [old|]; [|constructor].
        destruct (negb _); repeat constructor; cbn [snd]; lia.
      * constructor; [|constructor].
        exact (search_flags_range ic ws true text self).
    + split; [|discriminate]. split; [discriminate|now intros [_ ?]].
  - unfold search_next, emit_times.
    destruct (_text self) as [text|] eqn:Ht; cbn [fst snd].
    + split; [exact Hf|]. split; [now apply Forall_repeat|].
      rewrite Ht. split; [|discriminate]. split; [discriminate|now intros [? _]].
    + split; [exact Hf|]. split; [constructor|]. rewrite Ht. now repeat split.
  - unfold search_prev, emit_times.
    destruct (_text self) as [text|] eqn:Ht; cbn [fst snd].
    + split; [exact Hf|].
      split; [apply Forall_repeat; cbn [snd]; now apply toggled_range|].
      rewrite Ht. split; [|discriminate]. split; [discriminate|now intros [? _]].
    + split; [exact Hf|]. split; [constructor|]. rewrite Ht. now repeat split.
Qed.

Lemma steps_invariant (cs : list call) : forall self : SearchManager,
  0 <= _flags self <= 7 ->
  0 <= _flags (fst (steps cs self)) <= 7
  /\ Forall (fun e : emission => 0 <= snd e <= 7) (snd (steps cs self))
  /\ (_text (fst (steps cs self)) = None
      <-> _text self = None /\ existsb is_search cs = false)
  /\ (_text self = None -> existsb is_search cs = false ->
      steps cs self = (self, [])).
Proof.
  induction cs as [|c cs IH]; intros self Hf.
  { cbn [steps fst snd existsb]. repeat split; auto; tauto. }
  destruct (step_invariant c self Hf) as (H1 & H2 & H3 & H4).
  destruct (IH _ H1) as (I1 & I2 & I3 & I4).
  cbn [steps fst snd existsb]. split; [exact I1|].
  split; [now apply Forall_app|]. split.
  - rewrite I3, H3, orb_false_iff. tauto.
  - intros Ht Hs. apply orb_false_iff in Hs as [Hc Hcs].
    rewrite (H4 Ht Hc) in I4 |- *. cbn [fst snd] in I4 |- *.
    now rewrite (I4 Ht Hcs).
Qed.

(** X15: whatever calls are made on a new [SearchManager], with whatever
    configuration at each search, the stored flags and every emitted flags
    value stay within the three bits (0 to 7); the manager is without a
    text exactly as long as no search was called, and until then nothing is
    emitted and nothing changes. *)
Theorem search_calls_invariant (cs : list call) :
  0 <= _flags (fst (steps cs init)) <= 7
  /\ Forall (fun e : emission => 0 <= snd e <= 7) (snd (steps cs init))
  /\ (_text (fst (steps cs init)) = None <-> existsb is_search cs = false)
  /\ (existsb is_search cs = false -> steps cs init = (init, [])).
Proof.
  destruct (steps_invariant cs init) as (H1 & H2 & H3 & H4);
    [cbn [init _flags]; lia|].
  split; [exact H1|]. split; [exact H2|]. split.
  - rewrite H3. cbn [init _text]. tauto.
  - now apply H4.
Qed.

(** X16: after a backward search ([search_rev]), [search_prev] emits the
    text with the backward bit cleared and the other bits kept, and
    [search_next] emits the stored flags, backward bit set; neither changes
    the manager. *)
Theorem search_rev_then_prev_goes_forward (ic ws : bool) text (count n : Z)
    (self : SearchManager) :
  let searched := fst (search_rev ic ws text self) in
  exists flags,
    search_prev count searched
    = (searched, repeat (text, flags) (Z.to_nat count))
    /\ Z.testbit flags 0 = false
    /\ (forall i, i <> 0 -> Z.testbit flags i = Z.testbit (_flags searched) i)
    /\ search_next n searched
       = (searched, repeat (text, _flags searched) (Z.to_nat n))
    /\ Z.testbit (_flags searched) 0 = true.
Proof.
  intros searched.
  assert (Hback : Z.testbit (_flags searched) 0 = true).
  { unfold searched, search_rev, _search. cbn [fst _flags].
    now destruct ic, ws. }
  unfold search_prev, search_next, emit_times.
  change (_text searched) with (Some text).
  eexists. split; [reflexivity|]. split.
  - rewrite toggled_bits. cbn [Z.eqb]. now rewrite Hback.
  - split; [|now split]. intros i Hi. rewrite toggled_bits.
    now destruct (Z.eqb_spec i 0).
Qed.

(** X17: [search_next] and [search_prev] with a count of zero or below
    emit nothing and change nothing. *)
Theorem search_repeat_nonpositive (count : Z) (self : SearchManager) :
  count <= 0 ->
  search_next count self = (self, []) /\ search_prev count self = (self, []).
Proof.
  intros Hc. unfold search_next, search_prev, emit_times.
  replace (Z.to_nat count) with 0%nat by lia.
  now destruct (_text self).
Qed.

End SearchMore.

(** ** Arguments that are words; runs that do not depend on the manager *)
Section DispatchMore.

Context {W : Type} {G : Globals W}.



(** X19: when every segment of a line with [";;"] returns normally, each
    is run, in the order of the line and from the state the one before it
    left, by [run] and by the lenient entry points alike, and nothing is
    reported. *)
Theorem chain_runs_every_segment text count (s s' : session W) :
  contains ";;" text = true ->
  runs_ok count (split_sep ";;" text) s s' ->
  run text count s = (Return tt, s')
  /\ run_safely text count s = (Return tt, s')
  /\ run_safely_init text count s = (Return tt, s').
Proof.
  intros Hc Hall.
  assert (H : run text count s = (Return tt, s')).
  { rewrite run_chain by assumption.
    rewrite <- (app_nil_r (split_sep ";;" text)).
    now rewrite (for_each_runs_ok _ _ _ _ _ Hall). }
  unfold run_safely, run_safely_init, try_except. now rewrite H.
Qed.

(** What [parse] returns and stores does not depend on the manager it
    starts from. *)
Lemma parse_plain_indep t (self1 self2 : CommandManager W) :
  fst (parse_plain t self1) = fst (parse_plain t self2)
  /\ (forall toks, fst (parse_plain t self1) = Return toks ->
      _cmd (snd (parse_plain t self1)) = _cmd (snd (parse_plain t self2))
      /\ Store.read (_args (snd (parse_plain t self1)))
           (store (snd (parse_plain t self1)))
         = Store.read (_args (snd (parse_plain t self2)))
             (store (snd (parse_plain t self2)))).
Proof.
  unfold parse_plain. destruct (split_ws 1 (strip t)) as [|c l].
  { split; [reflexivity|discriminate]. }
  destruct (cmd_dict !! c) as [cmd|]; [|split; [reflexivity|discriminate]].
  split; [reflexivity|]. intros toks _.
  cbn [fst snd _cmd _args store after_parse].
  now rewrite !read_first_of_two.
Qed.

Lemma run_single_indep text count (s1 s2 : session W) :
  contains ";;" text = false ->
  world s1 = world s2 ->
  exists evs,
    fst (run text count s1) = fst (run text count s2)
    /\ world (snd (run text count s1)) = world (snd (run text count s2))
    /\ trace (snd (run text count s1)) = trace s1 ++ evs
    /\ trace (snd (run text count s2)) = trace s2 ++ evs.
Proof.
  intros Hc Hw. rewrite !run_single by assumption. rewrite !parse_eq.
  destruct (parse_plain_indep (parsed_text text true) (manager s1) (manager s2))
    as [Hr Hs].
  destruct (parse_plain (parsed_text text true) (manager s1))
    as [[toks|e] m1] eqn:E1;
    destruct (parse_plain (parsed_text text true) (manager s2))
      as [[toks2|e2] m2] eqn:E2; cbn [fst snd] in Hr, Hs; try discriminate.
  - destruct (Hs toks eq_refl) as [Hcmd Hargs]. rewrite <- Hcmd, <- Hargs.
    destruct (_cmd m1) as [cmd|].
    + cbv zeta. destruct (cmd_check cmd _) as [e|].
      * eexists [_]. cbn [fst snd world trace]. now repeat split.
      * eexists [_; _]. cbn [fst snd world trace]. rewrite <- Hw.
        now repeat split.
    + exists []. cbn [fst snd world trace]. rewrite !app_nil_r.
      now repeat split.
  - injection Hr as <-. exists []. cbn [fst snd world trace].
    rewrite !app_nil_r. now repeat split.
Qed.

Lemma for_each_indep count (l : list string) :
  (forall sub, In sub l -> contains ";;" sub = false) ->
  forall s1 s2 : session W,
  world s1 = world s2 ->
  exists evs,
    fst (for_each l (fun sub => run sub count) s1)
    = fst (for_each l (fun sub => run sub count) s2)
    /\ world (snd (for_each l (fun sub => run sub count) s1))
       = world (snd (for_each l (fun sub => run sub count) s2))
    /\ trace (snd (for_each l (fun sub => run sub count) s1)) = trace s1 ++ evs
    /\ trace (snd (for_each l (fun sub => run sub count) s2)) = trace s2 ++ evs.
Proof.
  induction l as [|sub l IH]; intros Hl s1 s2 Hw.
  { exists []. cbn. rewrite !app_nil_r. now repeat split. }
  destruct (run_single_indep sub count s1 s2) as (e1 & Hr & Hw1 & Ht1 & Ht2);
    [apply Hl; now left|assumption|].
  cbn [for_each]. unfold mbind, SE_bind.
  destruct (run sub count s1) as [[[]|e] t1];
    destruct (run sub count s2) as [[[]|e'] t2];
    cbn [fst snd] in *; try discriminate.
  - destruct (IH (fun x Hx => Hl x (or_intror Hx)) t1 t2 Hw1)
      as (e2 & Hr2 & Hw2 & Hu1 & Hu2).
    exists (e1 ++ e2). rewrite Hu1, Hu2, Ht1, Ht2, !(assoc_L (++)).
    now repeat split.
  - exists e1. now repeat split.
Qed.

(** X20: [run] never acts on what an earlier parse left in the manager: on
    two sessions with the same world, whatever their managers hold, it
    returns or raises the same, leaves the same world and adds the same
    events to the trace. *)
Theorem run_ignores_previous_parse text count (s1 s2 : session W) :
  world s1 = world s2 ->
  exists evs,
    fst (run text count s1) = fst (run text count s2)
    /\ world (snd (run text count s1)) = world (snd (run text count s2))
    /\ trace (snd (run text count s1)) = trace s1 ++ evs
    /\ trace (snd (run text count s2)) = trace s2 ++ evs.
Proof.
  intros Hw. destruct (contains ";;" text) eqn:Hc.
  - rewrite !run_chain by assumption. apply for_each_indep; [|assumption].
    intros sub. apply split_sep_chain_free.
  - now apply run_single_indep.
Qed.

End DispatchMore.

(** ** The further statements on the sample registry *)
Section MoreInstances.

Import Demo.

Ltac by_computation :=
  first [ cbn; lia | vm_compute; lia | vm_compute; intro; discriminate ].

Lemma split_cmdline_unknown_witness :
  parse (G := globals) "bogus  x " true init
  = (Raise (NoSuchCommandError "bogus: no such command"), init)
  /\ contains " " "bogus  x " = true
  /\ exists parts,
       split_cmdline (G := globals) "bogus  x " = Return parts
       /\ join " " parts = "bogus  x  ".
Proof.
  split; [reflexivity|]. split; [reflexivity|].
  exact (split_cmdline_unknown (G := globals) "bogus  x " init _ eq_refl).
Defined.

Lemma split_cmdline_keeps_parsed_tokens_witness :
  let self' := snd (parse (G := globals) "o x" true init) in
  parse (G := globals) "o x" true init = (Return ["open"; "x"], self')
  /\ (2 <= length ["open"; "x"])%nat
  /\ split_cmdline (G := globals) "o x" = Return ["open"; "x"].
Proof.
  intros self'. split; [reflexivity|]. split; [by_computation|].
  apply (split_cmdline_keeps_parsed_tokens (G := globals) "o x" self'
           ["open"; "x"] eq_refl).
  by_computation.
Defined.

Lemma parse_ignores_leading_whitespace_witness :
  all_space (String "009" " ") = true
  /\ is_empty "o x " = false
  /\ parse (G := globals) (String "009" " " +:+ "o x ") true after_open
     = parse (G := globals) "o x " true after_open.
Proof.
  split; [reflexivity|]. split; [reflexivity|].
  apply (parse_ignores_leading_whitespace (G := globals)); reflexivity.
Defined.

Lemma parse_returns_registered_word_witness :
  let self' := snd (parse (G := globals) "o x" true init) in
  parse (G := globals) "o x" true init = (Return ["open"; "x"], self')
  /\ exists cmdstr rest cmd,
       ["open"; "x"] = cmdstr :: rest /\ word cmdstr
       /\ cmd_dict (Globals := globals) !! cmdstr = Some cmd
       /\ _cmd self' = Some cmd.
Proof.
  intros self'. split; [reflexivity|].
  exact (parse_returns_registered_word (G := globals) "o x" true init self'
           ["open"; "x"] eq_refl).
Defined.

Lemma parse_fixed_arity_bound_witness :
  let self' := snd (parse (G := globals) "set a b c d e" true init) in
  parse (G := globals) "set a b c d e" true init
  = (Return ["set"; "a"; "b"; "c d e"], self')
  /\ _cmd self' = Some cmd_set
  /\ cmd_split cmd_set = false
  /\ 1 <= fst (cmd_nargs cmd_set)
  /\ Z.of_nat (length (Store.read (_args self') (store self'))) <= 3
  /\ Z.of_nat (length ["set"; "a"; "b"; "c d e"]) <= 1 + 3.
Proof.
  intros self'. split; [reflexivity|]. split; [reflexivity|].
  split; [reflexivity|]. split; [by_computation|].
  apply (parse_fixed_arity_bound (G := globals) "set a b c d e" true init self'
           ["set"; "a"; "b"; "c d e"] cmd_set eq_refl eq_refl eq_refl).
  by_computation.
Defined.

Lemma parse_keeps_existing_lists_witness :
  let self' := snd (parse (G := globals) "set a " true after_open) in
  parse (G := globals) "set a " true after_open
  = (Return ["set"; "a"; EmptyString], self')
  /\ (1 < length (store after_open))%nat
  /\ Store.read 1 (store after_open) = ["example.com"]
  /\ (length (store after_open) <= length (store self'))%nat
  /\ Store.read 1 (store self') = Store.read 1 (store after_open).
Proof.
  intros self'. split; [reflexivity|]. split; [by_computation|].
  split; [reflexivity|].
  apply (parse_keeps_existing_lists (G := globals) "set a " true after_open
           self' _ 1%nat eq_refl).
  by_computation.
Defined.

Lemma alias_replaces_leading_word_witness :
  word "q" /\ word "quit" /\ boundary " now "
  /\ config_aliases (Globals := globals) !! "q" = Some "quit"
  /\ parse (G := globals) ("q" +:+ " now ") true init
     = parse (G := globals) ("quit" +:+ " now ") false init.
Proof.
  assert (Hq : word "q") by (split; reflexivity).
  assert (Ht : word "quit") by (split; reflexivity).
  assert (Hb : boundary " now ") by reflexivity.
  split; [exact Hq|]. split; [exact Ht|]. split; [exact Hb|].
  split; [reflexivity|].
  exact (alias_replaces_leading_word (G := globals) "q" "quit" " now " init
           Hq Ht Hb eq_refl).
Defined.

Lemma run_without_handler_keeps_world_witness :
  let s := {| manager := init; world := [("open", ["z"])]; trace := [] |} in
  trace (snd (run (G := globals) "open a b" None s))
  = trace s ++ [Checked cmd_open ["a"; "b"]]
  /\ handlers_run [Checked cmd_open ["a"; "b"]] = 0%nat
  /\ world (snd (run (G := globals) "open a b" None s)) = world s.
Proof.
  intros s. split; [reflexivity|]. split; [reflexivity|].
  exact (run_without_handler_keeps_world (G := globals) "open a b" None s
           [Checked cmd_open ["a"; "b"]] eq_refl eq_refl).
Defined.

Lemma run_unknown_command_changes_nothing_witness :
  let s := {| manager := after_open; world := [("open", ["z"])]; trace := [] |} in
  let e := NoSuchCommandError "bogus: no such command" in
  contains ";;" "bogus x" = false
  /\ parse (G := globals) "bogus x" true (manager s) = (Raise e, after_open)
  /\ run (G := globals) "bogus x" (Some 2) s = (Raise e, s).
Proof.
  intros s e. split; [reflexivity|]. split; [reflexivity|].
  exact (run_unknown_command_changes_nothing (G := globals) "bogus x" (Some 2)
           s e after_open eq_refl eq_refl).
Defined.

Lemma run_failed_check_skips_handler_witness :
  let self' := snd (parse (G := globals) "open a b" true init) in
  let e := ArgumentCountError "wrong argument count" in
  contains ";;" "open a b" = false
  /\ parse (G := globals) "open a b" true (manager start)
     = (Return ["open"; "a"; "b"], self')
  /\ _cmd self' = Some cmd_open
  /\ cmd_check cmd_open (Store.read (_args self') (store self')) = Some e
  /\ run (G := globals) "open a b" None start
     = (Raise e,
        {| manager := self'; world := [];
           trace := [Checked cmd_open ["a"; "b"]] |}).
Proof.
  intros self' e. split; [reflexivity|]. split; [reflexivity|].
  split; [reflexivity|]. split; [reflexivity|].
  exact (run_failed_check_skips_handler (G := globals) "open a b" None start
           ["open"; "a"; "b"] self' cmd_open e eq_refl eq_refl eq_refl eq_refl).
Defined.

Lemma run_blank_segment_witness :
  let s1 := snd (run (G := globals) "quit" None start) in
  contains ";;" "quit;;" = true
  /\ split_sep ";;" "quit;;" = ["quit"] ++ EmptyString :: []
  /\ is_empty (strip EmptyString) = true
  /\ runs_ok (G := globals) None ["quit"] start s1
  /\ run (G := globals) "quit;;" None start
     = (Raise (NoSuchCommandError "No command given"), s1).
Proof.
  intros s1.
  assert (Hpre : runs_ok (G := globals) None ["quit"] start s1).
  { apply runs_ok_cons with (s1 := s1); [reflexivity|apply runs_ok_nil]. }
  split; [reflexivity|]. split; [reflexivity|]. split; [reflexivity|].
  split; [exact Hpre|].
  exact (run_blank_segment (G := globals) "quit;;" None start s1
           ["quit"] EmptyString [] eq_refl eq_refl eq_refl Hpre).
Defined.

Lemma search_repeat_nonpositive_witness :
  let self := {| Search._text := Some "foo"; Search._flags := 6 |} in
  -2 <= 0
  /\ Search.search_next (-2) self = (self, [])
  /\ Search.search_prev (-2) self = (self, []).
Proof.
  intros self. split; [lia|].
  exact (search_repeat_nonpositive (-2) self ltac:(lia)).
Defined.


Lemma chain_runs_every_segment_witness :
  let s1 := snd (run (G := globals) "open a" None start) in
  contains ";;" "open a;;quit" = true
  /\ split_sep ";;" "open a;;quit" = ["open a"; "quit"]
  /\ world (snd (run (G := globals) "open a;;quit" None start))
     = [("open", ["a"]); ("quit", [])]
  /\ run (G := globals) "open a;;quit" None start
     = (Return tt, snd (run (G := globals) "quit" None s1))
  /\ run_safely (G := globals) "open a;;quit" None start
     = (Return tt, snd (run (G := globals) "quit" None s1)).
Proof.
  intros s1.
  assert (Hall : runs_ok (G := globals) None (split_sep ";;" "open a;;quit")
                   start (snd (run (G := globals) "quit" None s1))).
  { apply runs_ok_cons with (s1 := s1); [reflexivity|].
    apply runs_ok_cons with (s1 := snd (run (G := globals) "quit" None s1));
      [reflexivity|apply runs_ok_nil]. }
  pose proof (chain_runs_every_segment (G := globals) "open a;;quit" None
                start _ eq_refl Hall) as (H1 & H2 & _).
  split; [reflexivity|]. split; [reflexivity|]. split; [reflexivity|].
  split; [exact H1|exact H2].
Defined.

Lemma run_ignores_previous_parse_witness :
  let s1 := start in
  let s2 := {| manager := after_open; world := [];
               trace := [Message (CommandError "earlier") false] |} in
  world s1 = world s2
  /\ exists evs,
       fst (run (G := globals) "o a;;bogus" None s1)
       = fst (run (G := globals) "o a;;bogus" None s2)
       /\ world (snd (run (G := globals) "o a;;bogus" None s1))
          = world (snd (run (G := globals) "o a;;bogus" None s2))
       /\ trace (snd (run (G := globals) "o a;;bogus" None s1)) = trace s1 ++ evs
       /\ trace (snd (run (G := globals) "o a;;bogus" None s2)) = trace s2 ++ evs.
Proof.
  intros s1 s2. split; [reflexivity|].
  exact (run_ignores_previous_parse (G := globals) "o a;;bogus" None s1 s2
           eq_refl).
Defined.

End MoreInstances.
